(** * Phaser v3 [paths/curves/Curve.js]: arc-length sampling of parametric curves

    A shallow embedding of the abstract [Curve] base class and proofs about
    its arc-length table, its u-to-t remapping, its sampling API and its
    Frenet frames.

    Numbers.  JavaScript numbers are IEEE doubles.  The arc-length part of
    the class only adds, subtracts, multiplies, divides and compares, so it
    is modelled over the rationals [Q] with exact arithmetic; a value that is
    not a finite number ([undefined], [NaN], a division by zero) is [None] in
    an [option Q].  Indices are integers; division counts are natural
    numbers, and an argument left out is [None].

    State.  A curve object carries the fields [cacheArcLengths],
    [needsUpdate] and [__arcLengthDivisions]; every method is a function in
    a state monad over that record.  The record has one more field,
    [samples], which is instrumentation: the parameters at which the point
    evaluator has been called, most recent first. *)

From Stdlib Require Import QArith Qminmax Qround ZArith List Bool Lia.
From Stdlib Require Import Reals RNsatz Psatz.
Import ListNotations.

Open Scope Q_scope.

(** ** The collaborators of the class *)

(** The vector operations [Curve.js] calls on the points returned by the
    evaluator ([current.distanceTo(last)], [pt2.clone().sub(pt1)],
    [vec.normalize()]).  The vector classes are required from
    [../../math], so they are an interface here. *)
Class Vector (P : Type) : Type := {
  distanceTo : P -> P -> Q;   (* [a.distanceTo(b)] *)
  sub : P -> P -> P;          (* [a.clone().sub(b)] *)
  normalize : P -> P          (* [a.normalize()]   *)
}.

(** What the proofs need of a distance. *)
Class Metric (P : Type) `{Vector P} : Prop := {
  distance_nonneg : forall a b : P, 0 <= distanceTo a b;
  distance_zero : forall a b : P, distanceTo a b == 0 -> a = b
}.

(** ** The curve object *)

Record Curve : Type := mkCurve {
  cacheArcLengths : option (list Q);   (* [this.cacheArcLengths], [None] when unset *)
  needsUpdate : bool;                  (* [this.needsUpdate], unset is falsy *)
  __arcLengthDivisions : option nat;     (* [this.__arcLengthDivisions] *)
  samples : list Q                     (* instrumentation, see above *)
}.

(** A curve as its constructor leaves it, with [n] as configured table
    resolution. *)
Definition newCurve (n : option nat) : Curve := mkCurve None false n [].

(** ** The state monad of the methods *)

Definition M (A : Type) : Type := Curve -> A * Curve.

Definition ret {A : Type} (a : A) : M A := fun c => (a, c).

Definition bind {A B : Type} (m : M A) (k : A -> M B) : M B :=
  fun c => let (a, c') := m c in k a c'.

Notation "x <- m ;; k" := (bind m (fun x => k))
  (at level 61, m at next level, right associativity).
Notation "m ;;; k" := (bind m (fun _ => k))
  (at level 61, right associativity).

Definition setNeedsUpdate (b : bool) : M unit := fun c =>
  (tt, mkCurve (cacheArcLengths c) b (__arcLengthDivisions c) (samples c)).

Definition setCacheArcLengths (cache : list Q) : M unit := fun c =>
  (tt, mkCurve (Some cache) (needsUpdate c) (__arcLengthDivisions c) (samples c)).

Definition recordSample (t : Q) : M unit := fun c =>
  (tt, mkCurve (cacheArcLengths c) (needsUpdate c) (__arcLengthDivisions c)
               (t :: samples c)).

(** [for (x of xs) out.push(body(x))] *)
Fixpoint forEach {A B : Type} (body : A -> M B) (xs : list A) : M (list B) :=
  match xs with
  | [] => ret []
  | x :: xs' => b <- body x ;; bs <- forEach body xs' ;; ret (b :: bs)
  end.

(** ** Numbers *)

(** An integer count used as a number. *)
Definition ofNat (n : nat) : Q := inject_Z (Z.of_nat n).

(** [if (!divisions) divisions = dflt]: an omitted argument and 0 are both
    falsy. *)
Definition orDefault (divisions : option nat) (dflt : nat) : nat :=
  match divisions with
  | Some (S n) => S n
  | _ => dflt
  end.

(** [a / b] where [b] may be zero: the quotient is then an infinity or
    [NaN], which is no rational. *)
Definition jsdiv (a b : Q) : option Q :=
  if Qeq_bool b 0 then None else Some (a / b).

(** [arr[i]]: [undefined] outside the array. *)
Definition at_index (arr : list Q) (i : Z) : option Q :=
  if (i <? 0)%Z then None else nth_error arr (Z.to_nat i).

(** ** The methods of [Curve] *)

Section Methods.

Context {Point : Type} `{Vector Point}.

(** The concrete shape's [getPoint(t)]. *)
Variable evaluate : Q -> Point.

(** [this.getPoint(t)], instrumented. *)
Definition getPoint (t : Q) : M Point :=
  recordSample t ;;; ret (evaluate t).

Definition getPoints (divisions : option nat) : M (list Point) :=
  let divisions := orDefault divisions 5 in
  forEach (fun d => getPoint (ofNat d / ofNat divisions))
          (seq 0 (S divisions)).

(** The loop of [getLengths]: [ps] are the values of [p] still to run. *)
Fixpoint lengthsLoop (divisions : nat) (ps : list nat) (last : Point) (sum : Q)
  : M (list Q) :=
  match ps with
  | [] => ret []
  | p :: ps' =>
      current <- getPoint (ofNat p / ofNat divisions) ;;
      let sum := sum + distanceTo current last in
      rest <- lengthsLoop divisions ps' current sum ;;
      ret (sum :: rest)
  end.

(** The division count [getLengths] works with. *)
Definition lengthsDivisions (divisions : option nat) (c : Curve) : nat :=
  orDefault divisions (orDefault (__arcLengthDivisions c) 200).

Definition getLengths (divisions : option nat) : M (list Q) := fun c =>
  let divisions := lengthsDivisions divisions c in
  let rebuild : M (list Q) :=
    setNeedsUpdate false ;;;
    last <- getPoint 0 ;;
    rest <- lengthsLoop divisions (seq 1 divisions) last 0 ;;
    let cache := 0 :: rest in
    setCacheArcLengths cache ;;;
    ret cache in
  match cacheArcLengths c with
  | Some cache =>
      if (length cache =? divisions + 1)%nat && negb (needsUpdate c)
      then (cache, c)
      else rebuild c
  | None => rebuild c
  end.

Definition getLength : M (option Q) :=
  lengths <- getLengths None ;;
  ret (at_index lengths (Z.of_nat (length lengths) - 1)).

Definition updateArcLengths : M unit :=
  setNeedsUpdate true ;;;
  getLengths None ;;;
  ret tt.

(** [targetArcLength] of [getUtoTmapping]; [if (distance)] is falsy for an
    omitted argument and for 0. *)
Definition targetArcLength (u : Q) (distance : option Q) (arcLengths : list Q)
  : option Q :=
  let il := Z.of_nat (length arcLengths) in
  match distance with
  | Some d =>
      if Qeq_bool d 0
      then option_map (Qmult u) (at_index arcLengths (il - 1))
      else Some d
  | None => option_map (Qmult u) (at_index arcLengths (il - 1))
  end.

(** The [while (low <= high)] loop of [getUtoTmapping]; the result is the
    value of [high] when the loop is left.  Each turn shrinks
    [high - low], so [fuel] turns are enough when
    [high - low < fuel] (lemma [search_fuel]). *)
Fixpoint search (fuel : nat) (arcLengths : list Q) (targetArcLength : Q)
  (low high : Z) : Z :=
  match fuel with
  | O => high
  | S fuel' =>
      if (low <=? high)%Z then
        let i := (low + (high - low) / 2)%Z in
        match at_index arcLengths i with
        | Some a =>
            let comparison := a - targetArcLength in
            match Qcompare comparison 0 with
            | Lt => search fuel' arcLengths targetArcLength (i + 1)%Z high
            | Gt => search fuel' arcLengths targetArcLength low (i - 1)%Z
            | Eq => i
            end
        | None => i
        end
      else high
  end.

(** The index [i] after [i = high]. *)
Definition searchIndex (arcLengths : list Q) (targetArcLength : Q) : Z :=
  let il := Z.of_nat (length arcLengths) in
  search (length arcLengths) arcLengths targetArcLength 0 (il - 1).

(** The rest of [getUtoTmapping], from [if (arcLengths[i] === targetArcLength)]. *)
Definition interpolate (arcLengths : list Q) (targetArcLength : Q) (i : Z)
  : option Q :=
  let il := Z.of_nat (length arcLengths) in
  let exact :=
    match at_index arcLengths i with
    | Some a => Qeq_bool a targetArcLength
    | None => false
    end in
  if exact then jsdiv (inject_Z i) (inject_Z (il - 1))
  else
    match at_index arcLengths i, at_index arcLengths (i + 1) with
    | Some lengthBefore, Some lengthAfter =>
        let segmentLength := lengthAfter - lengthBefore in
        match jsdiv (targetArcLength - lengthBefore) segmentLength with
        | Some segmentFraction =>
            jsdiv (inject_Z i + segmentFraction) (inject_Z (il - 1))
        | None => None
        end
    | _, _ => None
    end.

Definition getUtoTmapping (u : Q) (distance : option Q) : M (option Q) :=
  arcLengths <- getLengths None ;;
  match targetArcLength u distance arcLengths with
  | Some target =>
      ret (interpolate arcLengths target (searchIndex arcLengths target))
  | None => ret None
  end.

(** [getPointAt(u)]; [None] when the remapping yields no finite [t]. *)
Definition getPointAt (u : Q) : M (option Point) :=
  t <- getUtoTmapping u None ;;
  match t with
  | Some t => p <- getPoint t ;; ret (Some p)
  | None => ret None
  end.

Definition getSpacedPoints (divisions : option nat) : M (list (option Point)) :=
  let divisions := orDefault divisions 5 in
  forEach (fun d => getPointAt (ofNat d / ofNat divisions))
          (seq 0 (S divisions)).

Definition delta : Q := 1 # 10000.

Definition getTangent (t : Q) : M Point :=
  let t1 := t - delta in
  let t2 := t + delta in
  let t1 := match Qcompare t1 0 with Lt => 0 | _ => t1 end in
  let t2 := match Qcompare t2 1 with Gt => 1 | _ => t2 end in
  pt1 <- getPoint t1 ;;
  pt2 <- getPoint t2 ;;
  let vec := sub pt2 pt1 in
  ret (normalize vec).

Definition getTangentAt (u : Q) : M (option Point) :=
  t <- getUtoTmapping u None ;;
  match t with
  | Some t => v <- getTangent t ;; ret (Some v)
  | None => ret None
  end.

End Methods.

(** ** A family of concrete shapes on a line

    Points are integers on a line; the distance is the absolute difference
    and the unit vector of a difference is its sign. *)

#[export] Instance lineVector : Vector Z := {
  distanceTo a b := inject_Z (Z.abs (a - b));
  sub a b := (a - b)%Z;
  normalize a := Z.sgn a
}.

(** Rests at 0 for the first half of the parameter range, then jumps to 1. *)
Definition lateStep (t : Q) : Z := if Qle_bool t (1 # 2) then 0%Z else 1%Z.

(** Jumps to 1 before the middle of the parameter range. *)
Definition earlyStep (t : Q) : Z := if Qle_bool (1 # 2) t then 1%Z else 0%Z.

(** The integer part of [10 t]: a staircase from 0 to 10. *)
Definition stairs (t : Q) : Z := Qfloor (10 * t).

(** ** Vocabulary of the statements *)

Section Vocabulary.

Context {Point : Type} `{Vector Point}.
Variable evaluate : Q -> Point.

(** The point [getLengths] samples at step [k] of [divisions]:
    [getPoint(0)] first, then [getPoint(p / divisions)]. *)
Definition samplePoint (divisions k : nat) : Point :=
  match k with
  | O => evaluate 0
  | S _ => evaluate (ofNat k / ofNat divisions)
  end.

(** The parameters [getLengths] samples, in call order. *)
Definition sampleParams (divisions : nat) : list Q :=
  0 :: map (fun p => ofNat p / ofNat divisions) (seq 1 divisions).

(** The running sums the loop of [getLengths] pushes. *)
Fixpoint sums (divisions : nat) (ps : list nat) (last : Point) (sum : Q)
  : list Q :=
  match ps with
  | [] => []
  | p :: ps' =>
      let current := evaluate (ofNat p / ofNat divisions) in
      let sum := sum + distanceTo current last in
      sum :: sums divisions ps' current sum
  end.

(** The table a rebuild with [divisions] divisions produces. *)
Definition table (divisions : nat) : list Q :=
  0 :: sums divisions (seq 1 divisions) (evaluate 0) 0.

(** The cache, when there is one and the curve is not marked dirty, is
    the table of the evaluator at the cache's own resolution: nobody
    changed the shape behind the cache's back. *)
Definition cacheCurrent (c : Curve) : Prop :=
  forall cache, cacheArcLengths c = Some cache -> needsUpdate c = false ->
    cache = table (length cache - 1).

(** The curve after a rebuild with [divisions] divisions: fresh table,
    flag cleared, one evaluator call per sample parameter. *)
Definition rebuilt (divisions : nat) (c : Curve) : Curve :=
  mkCurve (Some (table divisions)) false (__arcLengthDivisions c)
          (rev (sampleParams divisions) ++ samples c).

End Vocabulary.

(** The test [getLengths] makes before it reuses the cache. *)
Definition cacheHit (divisions : nat) (c : Curve) : bool :=
  match cacheArcLengths c with
  | Some cache => (length cache =? divisions + 1)%nat && negb (needsUpdate c)
  | None => false
  end.

(** A call of [getLengths] samples the evaluator. *)
Definition resamples {Point : Type} `{Vector Point} (evaluate : Q -> Point)
  (divisions : option nat) (c : Curve) : Prop :=
  samples (snd (getLengths evaluate divisions c)) <> samples c.

(** The curves a program obtains from a new one by calling the methods and
    by setting [__arcLengthDivisions], while the shape stays the same. *)
Inductive Reachable {Point : Type} `{Vector Point} (evaluate : Q -> Point)
  : Curve -> Prop :=
| reach_new (n : option nat) :
    Reachable evaluate (newCurve n)
| reach_configure (c : Curve) (n : option nat) :
    Reachable evaluate c ->
    Reachable evaluate (mkCurve (cacheArcLengths c) (needsUpdate c) n (samples c))
| reach_getPoint (c : Curve) (t : Q) :
    Reachable evaluate c -> Reachable evaluate (snd (getPoint evaluate t c))
| reach_getPointAt (c : Curve) (u : Q) :
    Reachable evaluate c -> Reachable evaluate (snd (getPointAt evaluate u c))
| reach_getPoints (c : Curve) (divisions : option nat) :
    Reachable evaluate c ->
    Reachable evaluate (snd (getPoints evaluate divisions c))
| reach_getSpacedPoints (c : Curve) (divisions : option nat) :
    Reachable evaluate c ->
    Reachable evaluate (snd (getSpacedPoints evaluate divisions c))
| reach_getLength (c : Curve) :
    Reachable evaluate c -> Reachable evaluate (snd (getLength evaluate c))
| reach_getLengths (c : Curve) (divisions : option nat) :
    Reachable evaluate c ->
    Reachable evaluate (snd (getLengths evaluate divisions c))
| reach_updateArcLengths (c : Curve) :
    Reachable evaluate c -> Reachable evaluate (snd (updateArcLengths evaluate c))
| reach_getUtoTmapping (c : Curve) (u : Q) (distance : option Q) :
    Reachable evaluate c ->
    Reachable evaluate (snd (getUtoTmapping evaluate u distance c))
| reach_getTangent (c : Curve) (t : Q) :
    Reachable evaluate c -> Reachable evaluate (snd (getTangent evaluate t c))
| reach_getTangentAt (c : Curve) (u : Q) :
    Reachable evaluate c -> Reachable evaluate (snd (getTangentAt evaluate u c)).

(** The curves a program obtains from [c] by calls that leave a cached
    table of [divisions] divisions alone: the evaluator and the methods that
    only evaluate, [getLengths] at that count and, when that count is the
    curve's own resolution, the methods that call [getLengths()]. *)
Inductive Undisturbed {Point : Type} `{Vector Point} (evaluate : Q -> Point)
  (divisions : nat) (c : Curve) : Curve -> Prop :=
| undisturbed_start :
    Undisturbed evaluate divisions c c
| undisturbed_getPoint (c1 : Curve) (t : Q) :
    Undisturbed evaluate divisions c c1 ->
    Undisturbed evaluate divisions c (snd (getPoint evaluate t c1))
| undisturbed_getPoints (c1 : Curve) (n : option nat) :
    Undisturbed evaluate divisions c c1 ->
    Undisturbed evaluate divisions c (snd (getPoints evaluate n c1))
| undisturbed_getTangent (c1 : Curve) (t : Q) :
    Undisturbed evaluate divisions c c1 ->
    Undisturbed evaluate divisions c (snd (getTangent evaluate t c1))
| undisturbed_getLengths (c1 : Curve) (n : option nat) :
    Undisturbed evaluate divisions c c1 ->
    lengthsDivisions n c1 = divisions ->
    Undisturbed evaluate divisions c (snd (getLengths evaluate n c1))
| undisturbed_getLength (c1 : Curve) :
    Undisturbed evaluate divisions c c1 ->
    lengthsDivisions None c1 = divisions ->
    Undisturbed evaluate divisions c (snd (getLength evaluate c1))
| undisturbed_getUtoTmapping (c1 : Curve) (u : Q) (distance : option Q) :
    Undisturbed evaluate divisions c c1 ->
    lengthsDivisions None c1 = divisions ->
    Undisturbed evaluate divisions c (snd (getUtoTmapping evaluate u distance c1))
| undisturbed_getPointAt (c1 : Curve) (u : Q) :
    Undisturbed evaluate divisions c c1 ->
    lengthsDivisions None c1 = divisions ->
    Undisturbed evaluate divisions c (snd (getPointAt evaluate u c1))
| undisturbed_getTangentAt (c1 : Curve) (u : Q) :
    Undisturbed evaluate divisions c c1 ->
    lengthsDivisions None c1 = divisions ->
    Undisturbed evaluate divisions c (snd (getTangentAt evaluate u c1))
| undisturbed_getSpacedPoints (c1 : Curve) (n : option nat) :
    Undisturbed evaluate divisions c c1 ->
    lengthsDivisions None c1 = divisions ->
    Undisturbed evaluate divisions c (snd (getSpacedPoints evaluate n c1)).

(** What [getUtoTmapping] computes from the table it got. *)
Definition remap (arcLengths : list Q) (u : Q) (distance : option Q) : option Q :=
  match targetArcLength u distance arcLengths with
  | Some target => interpolate arcLengths target (searchIndex arcLengths target)
  | None => None
  end.

(** A table is non-decreasing. *)
Definition nonDecreasing (arr : list Q) : Prop :=
  forall (i j : Z) (a b : Q), (i <= j)%Z ->
    at_index arr i = Some a -> at_index arr j = Some b -> a <= b.

(** A table is strictly increasing. *)
Definition increasing (arr : list Q) : Prop :=
  forall (i j : Z) (a b : Q), (i < j)%Z ->
    at_index arr i = Some a -> at_index arr j = Some b -> a < b.

(** The executable test for [increasing]: each entry is below the next. *)
Fixpoint increasingb (arr : list Q) : bool :=
  match arr with
  | a :: (b :: _) as rest => negb (Qle_bool b a) && increasingb rest
  | _ => true
  end.

(** [i] is the largest index of [arr] whose entry is at most [x]. *)
Definition largestAtMost (arr : list Q) (x : Q) (i : Z) : Prop :=
  (exists a, at_index arr i = Some a /\ a <= x) /\
  (forall (j : Z) (b : Q), at_index arr j = Some b -> b <= x -> (j <= i)%Z).

(** Every parameter the evaluator has been called with lies in [0,1], the
    range on which a shape has to define [getPoint]. *)
Definition inDomain (c : Curve) : Prop :=
  Forall (fun t => 0 <= t <= 1) (samples c).

(** Two results of [getUtoTmapping] are the same number, or both none. *)
Definition sameNumber (a b : option Q) : Prop :=
  match a, b with
  | Some x, Some y => x == y
  | None, None => True
  | _, _ => False
  end.

(** The sum of the numbers of a list, as [sum += ...] builds it. *)
Definition total (l : list Q) : Q := fold_right Qplus 0 l.

(** The distances [getLengths] adds up: from each sample point to the one
    before, for [divisions] divisions. *)
Definition steps {Point : Type} `{Vector Point} (evaluate : Q -> Point)
  (divisions : nat) : list Q :=
  map (fun k => distanceTo (samplePoint evaluate divisions (S k))
                           (samplePoint evaluate divisions k))
      (seq 0 divisions).

(** The loop of [getUtoTmapping] once more, with the indices [i] it reads
    [arcLengths[i]] at, in order, beside its result. *)
Fixpoint searchTrace (fuel : nat) (arcLengths : list Q) (targetArcLength : Q)
  (low high : Z) : Z * list Z :=
  match fuel with
  | O => (high, [])
  | S fuel' =>
      if (low <=? high)%Z then
        let i := (low + (high - low) / 2)%Z in
        match at_index arcLengths i with
        | Some a =>
            let comparison := a - targetArcLength in
            match Qcompare comparison 0 with
            | Lt =>
                let (r, reads) :=
                  searchTrace fuel' arcLengths targetArcLength (i + 1)%Z high in
                (r, i :: reads)
            | Gt =>
                let (r, reads) :=
                  searchTrace fuel' arcLengths targetArcLength low (i - 1)%Z in
                (r, i :: reads)
            | Eq => (i, [i])
            end
        | None => (i, [i])
        end
      else (high, [])
  end.

(** * Frenet frames

    [computeFrenetFrames] normalizes vectors and turns them by angles: it
    needs square roots, [acos], [cos] and [sin].  This part is modelled over
    the real numbers, again with exact arithmetic.  The method reaches the
    curve only through [this.getTangentAt(u)], which is a parameter here.
    Its argument [u = i / segments] is a JavaScript number: a real, or, for
    [0 / 0], [NaN], which is [None]. *)

Local Open Scope R_scope.

Record Vector3 : Type := vec3 { x : R; y : R; z : R }.

(** Modelled from the spec: the 4x4 transform of the geometric primitives,
    which [Curve.js] requires from [../../math/Matrix4].  Of the matrix only
    the rotation block is kept, by rows: a rotation about an axis through
    the origin leaves the rest that of the identity. *)
Record Matrix4 : Type := mat4 { row1 : Vector3; row2 : Vector3; row3 : Vector3 }.

Module Vector3.

(** Modelled from the spec: the dot product of the geometric primitive
    that [Curve.js] requires from [../../math/Vector3]. *)
Definition dot (a b : Vector3) : R := x a * x b + y a * y b + z a * z b.

(** Modelled from the spec: the cross product [out.crossVectors(a, b)]. *)
Definition crossVectors (a b : Vector3) : Vector3 :=
  vec3 (y a * z b - z a * y b) (z a * x b - x a * z b) (x a * y b - y a * x b).

(** Modelled from the spec: the Euclidean length. *)
Definition length (a : Vector3) : R := sqrt (dot a a).

(** Modelled from the spec: normalize, the vector scaled to length 1.  A
    vector of length 0 has no direction and is left as it is. *)
Definition normalize (a : Vector3) : Vector3 :=
  let len := dot a a in
  if Rlt_dec 0 len
  then let len := 1 / sqrt len in vec3 (x a * len) (y a * len) (z a * len)
  else a.

(** Modelled from the spec: the vector transformed by a matrix, here by its
    rotation block. *)
Definition transformMat4 (a : Vector3) (m : Matrix4) : Vector3 :=
  vec3 (dot (row1 m) a) (dot (row2 m) a) (dot (row3 m) a).

End Vector3.

Module Matrix4.

(** Modelled from the spec: rotate-about-axis-by-angle, the matrix of the
    rotation by [angle] about the unit vector [axis] (right-handed). *)
Definition makeRotationAxis (axis : Vector3) (angle : R) : Matrix4 :=
  let c := cos angle in
  let s := sin angle in
  let t := 1 - c in
  let tx := t * x axis in
  let ty := t * y axis in
  mat4 (vec3 (tx * x axis + c) (tx * y axis - s * z axis) (tx * z axis + s * y axis))
       (vec3 (tx * y axis + s * z axis) (ty * y axis + c) (ty * z axis - s * x axis))
       (vec3 (tx * z axis - s * y axis) (ty * z axis + s * x axis) (t * z axis * z axis + c)).

End Matrix4.

(** Modelled from the spec: [Clamp(value, min, max)] of [../../math/Clamp],
    which keeps the argument of [acos] within [min, max]. *)
Definition Clamp (value min max : R) : R := Rmax min (Rmin max value).

(** [Number.EPSILON] and [Number.MAX_VALUE]. *)
Definition EPSILON : R := / 2 ^ 52.
Definition MAX_VALUE : R := (2 - / 2 ^ 52) * 2 ^ 1023.

Record FrenetFrames : Type := frenetFrames {
  tangents : list Vector3;
  normals : list Vector3;
  binormals : list Vector3
}.

(** [u = i / segments] in the first loop.  With [segments = 0] the loop
    runs for [i = 0] only, and [0 / 0] is [NaN]. *)
Definition sampleParameter (i segments : nat) : option R :=
  match segments with
  | O => None
  | S _ => Some (INR i / INR segments)
  end.

Section Frenet.

(** [this.getTangentAt(u)]; [u] is [None] when it is [NaN]. *)
Variable getTangentAt : option R -> Vector3.

(** The first loop: [tangents[i] = this.getTangentAt(i / segments)],
    normalized. *)
Definition sampleTangents (segments : nat) : list Vector3 :=
  map (fun i => Vector3.normalize (getTangentAt (sampleParameter i segments)))
      (seq 0 (S segments)).

(** The world axis picked for the first tangent: the three [if (t <= min)]
    in a row. *)
Definition leastAxis (tangent0 : Vector3) : Vector3 :=
  let min := MAX_VALUE in
  let normal := vec3 0 0 0 in
  let tx := Rabs (x tangent0) in
  let ty := Rabs (y tangent0) in
  let tz := Rabs (z tangent0) in
  let (min, normal) :=
    if Rle_dec tx min then (tx, vec3 1 0 0) else (min, normal) in
  let (min, normal) :=
    if Rle_dec ty min then (ty, vec3 0 1 0) else (min, normal) in
  if Rle_dec tz min then vec3 0 0 1 else normal.

(** [normals[0]]. *)
Definition firstNormal (tangent0 : Vector3) : Vector3 :=
  let normal := leastAxis tangent0 in
  let vec := Vector3.normalize (Vector3.crossVectors tangent0 normal) in
  Vector3.crossVectors tangent0 vec.

(** One turn of the second loop: [normals[i]] from [tangents[i - 1]],
    [normals[i - 1]] and [tangents[i]]. *)
Definition transportNormal (tangentBefore normalBefore tangent : Vector3)
  : Vector3 :=
  let vec := Vector3.crossVectors tangentBefore tangent in
  if Rlt_dec EPSILON (Vector3.length vec) then
    let vec := Vector3.normalize vec in
    let theta := acos (Clamp (Vector3.dot tangentBefore tangent) (-1) 1) in
    Vector3.transformMat4 normalBefore (Matrix4.makeRotationAxis vec theta)
  else normalBefore.

(** The second loop, over the tangents from index [i] on: the normals from
    index [i] on. *)
Fixpoint transport (tangentBefore normalBefore : Vector3) (ts : list Vector3)
  : list Vector3 :=
  match ts with
  | [] => []
  | tangent :: ts' =>
      let normal := transportNormal tangentBefore normalBefore tangent in
      normal :: transport tangent normal ts'
  end.

(** The loop of the closed branch, from index [i] on: each normal turned
    about its tangent by [theta * i]. *)
Fixpoint twist (theta : R) (i : nat) (ts ns : list Vector3) : list Vector3 :=
  match ts, ns with
  | tangent :: ts', normal :: ns' =>
      Vector3.transformMat4 normal
        (Matrix4.makeRotationAxis tangent (theta * INR i))
      :: twist theta (S i) ts' ns'
  | _, _ => []
  end.

(** [theta] of the closed branch. *)
Definition twistAngle (segments : nat) (tangent0 normal0 normalLast : Vector3)
  : R :=
  let theta := acos (Clamp (Vector3.dot normal0 normalLast) (-1) 1) in
  let theta := theta / INR segments in
  if Rlt_dec 0 (Vector3.dot tangent0 (Vector3.crossVectors normal0 normalLast))
  then - theta else theta.

Definition computeFrenetFrames (segments : nat) (closed : bool) : FrenetFrames :=
  let tangents := sampleTangents segments in
  let tangent0 := hd (vec3 0 0 0) tangents in
  let normal0 := firstNormal tangent0 in
  let rest := transport tangent0 normal0 (tl tangents) in
  let rest :=
    if closed then
      let normalLast := last rest normal0 in
      twist (twistAngle segments tangent0 normal0 normalLast) 1 (tl tangents) rest
    else rest in
  let normals := normal0 :: rest in
  frenetFrames tangents normals
    (map (fun tn => Vector3.crossVectors (fst tn) (snd tn))
         (combine tangents normals)).

End Frenet.

(** Vocabulary of the statements about frames. *)

(** [v.transformMat4(mat.makeRotationAxis(axis, angle))]. *)
Definition rotate (axis : Vector3) (angle : R) (v : Vector3) : Vector3 :=
  Vector3.transformMat4 v (Matrix4.makeRotationAxis axis angle).

Definition unit (v : Vector3) : Prop := Vector3.length v = 1.

(** Three mutually orthogonal unit vectors. *)
Definition orthonormal (t n b : Vector3) : Prop :=
  unit t /\ unit n /\ unit b /\
  Vector3.dot t n = 0 /\ Vector3.dot t b = 0 /\ Vector3.dot n b = 0.

(** Consecutive sampled tangents either point along one line or differ by
    more than the guard [vec.length() > Number.EPSILON] lets pass. *)
Definition steady (getTangentAt : option R -> Vector3) (segments : nat)
  : Prop :=
  forall (i : nat) (a b : Vector3),
    nth_error (sampleTangents getTangentAt segments) i = Some a ->
    nth_error (sampleTangents getTangentAt segments) (S i) = Some b ->
    Vector3.crossVectors a b = vec3 0 0 0 \/
    EPSILON < Vector3.length (Vector3.crossVectors a b).

(** No sampled tangent vanishes. *)
Definition regular (getTangentAt : option R -> Vector3) (segments : nat)
  : Prop :=
  forall i : nat, (i <= segments)%nat ->
    getTangentAt (sampleParameter i segments) <> vec3 0 0 0.


(** The vector [v] stretched by [k]. *)
Definition scale (k : R) (v : Vector3) : Vector3 :=
  vec3 (k * x v) (k * y v) (k * z v).

(** ** Concrete tangent fields *)

(** [u < bound], which is false when [u] is [NaN]. *)
Definition below (u : option R) (bound : R) : bool :=
  match u with
  | Some u => if Rlt_dec u bound then true else false
  | None => false
  end.

(** The tangent of a closed path that leaves along x, has turned to y a
    third of the way, to z two thirds of the way, and comes back along x:
    the directions do not stay in one plane. *)
Definition turningTangent (u : option R) : Vector3 :=
  if below u (1 / 6) then vec3 1 0 0
  else if below u (1 / 2) then vec3 0 1 0
  else if below u (5 / 6) then vec3 0 0 1
  else vec3 1 0 0.

(** The tangent along a closed path in the x-z plane that is traversed from
    a corner: it leaves along x and comes back along -z. *)
Definition cornerTangent (u : option R) : Vector3 :=
  if below u (1 / 2) then vec3 1 0 0 else vec3 0 0 (-1).

Local Close Scope R_scope.

(** ** Running the state monad *)

Lemma run_bind {A B : Type} (m : M A) (k : A -> M B) (c : Curve) :
  bind m k c = k (fst (m c)) (snd (m c)).
Proof. unfold bind. destruct (m c); reflexivity. Qed.

Lemma forEach_length {A B : Type} (body : A -> M B) (xs : list A) (c : Curve) :
  length (fst (forEach body xs c)) = length xs.
Proof.
  revert c. induction xs as [|x xs IH]; intro c; simpl.
  - reflexivity.
  - rewrite run_bind, run_bind. simpl. now rewrite IH.
Qed.

(** ** Array access *)

Lemma at_index_nat (arr : list Q) (n : nat) :
  at_index arr (Z.of_nat n) = nth_error arr n.
Proof.
  unfold at_index. destruct (Z.ltb_spec (Z.of_nat n) 0); [lia|].
  now rewrite Nat2Z.id.
Qed.

Lemma at_index_Some (arr : list Q) (i : Z) (a : Q) :
  at_index arr i = Some a ->
  (0 <= i < Z.of_nat (length arr))%Z /\ nth_error arr (Z.to_nat i) = Some a.
Proof.
  unfold at_index. destruct (Z.ltb_spec i 0); [discriminate|].
  intro E. split; [|exact E].
  assert (Z.to_nat i < length arr)%nat by (apply nth_error_Some; congruence).
  lia.
Qed.

Lemma at_index_in_range (arr : list Q) (i : Z) :
  (0 <= i < Z.of_nat (length arr))%Z -> exists a, at_index arr i = Some a.
Proof.
  intros [H0 H1]. unfold at_index. destruct (Z.ltb_spec i 0); [lia|].
  destruct (nth_error arr (Z.to_nat i)) eqn:E; [eauto|].
  apply nth_error_None in E. lia.
Qed.

(** ** The arc-length table *)

Section Table.

Context {Point : Type} `{Metric Point}.
Variable evaluate : Q -> Point.

Lemma sums_length (d : nat) (ps : list nat) (last : Point) (sum : Q) :
  length (sums evaluate d ps last sum) = length ps.
Proof.
  revert last sum. induction ps as [|p ps IH]; intros; simpl; [reflexivity|].
  now rewrite IH.
Qed.

Lemma table_length (d : nat) : length (table evaluate d) = S d.
Proof. unfold table. simpl. now rewrite sums_length, length_seq. Qed.

(** Each entry is the one before plus the distance between the two
    sample points. *)
Lemma sums_step (d n : nat) :
  forall (s : nat) (x0 : Q) (k : nat) (x : Q), (k < n)%nat ->
    nth_error (x0 :: sums evaluate d (seq (S s) n) (samplePoint evaluate d s) x0) k
      = Some x ->
    nth_error (x0 :: sums evaluate d (seq (S s) n) (samplePoint evaluate d s) x0) (S k)
      = Some (x + distanceTo (samplePoint evaluate d (S (s + k)))
                             (samplePoint evaluate d (s + k))).
Proof.
  induction n as [|n IH]; intros s x0 k x Hk E; [lia|].
  destruct k as [|k].
  - simpl in E. injection E as <-. simpl. now rewrite Nat.add_0_r.
  - simpl in E. simpl.
    replace (S (s + S k)) with (S (S s + k)) by lia.
    replace (s + S k)%nat with (S s + k)%nat by lia.
    apply (IH (S s) _ k x); [lia|exact E].
Qed.

Lemma table_step (d k : nat) (x : Q) : (k < d)%nat ->
  nth_error (table evaluate d) k = Some x ->
  nth_error (table evaluate d) (S k)
    = Some (x + distanceTo (samplePoint evaluate d (S k)) (samplePoint evaluate d k)).
Proof.
  intros Hk E. exact (sums_step d d 0 0 k x Hk E).
Qed.

Lemma table_first (d : nat) : nth_error (table evaluate d) 0 = Some 0.
Proof. reflexivity. Qed.

(** Between two indices the table grows, and where it does not grow the
    sample points are the same point. *)
Lemma table_between (d : nat) (n j : nat) (a b : Q) :
  (j + n <= d)%nat ->
  nth_error (table evaluate d) j = Some a ->
  nth_error (table evaluate d) (j + n) = Some b ->
  a <= b /\ (a == b -> samplePoint evaluate d j = samplePoint evaluate d (j + n)).
Proof.
  revert b. induction n as [|n IH]; intros b Hle Ea Eb.
  - rewrite Nat.add_0_r in *. rewrite Ea in Eb. injection Eb as <-.
    split; [apply Qle_refl | reflexivity].
  - destruct (nth_error (table evaluate d) (j + n)) as [x|] eqn:Ex.
    + assert (Hs := table_step d (j + n) x ltac:(lia) Ex).
      replace (j + S n)%nat with (S (j + n)) in * by lia.
      rewrite Hs in Eb. injection Eb as <-.
      change (evaluate (ofNat (S (j + n)) / ofNat d))
        with (samplePoint evaluate d (S (j + n))).
      destruct (IH x ltac:(lia) Ea eq_refl) as [Hax Heq].
      pose proof (distance_nonneg (samplePoint evaluate d (S (j + n)))
                                  (samplePoint evaluate d (j + n))) as Hd.
      split; [lra|].
      intro Hab.
      assert (Hz : distanceTo (samplePoint evaluate d (S (j + n)))
                              (samplePoint evaluate d (j + n)) == 0) by lra.
      apply distance_zero in Hz. rewrite Hz. apply Heq. lra.
    + apply nth_error_None in Ex. rewrite table_length in Ex. lia.
Qed.

Lemma table_nonDecreasing (d : nat) : nonDecreasing (table evaluate d).
Proof.
  intros i j a b Hij Ea Eb.
  apply at_index_Some in Ea. apply at_index_Some in Eb.
  destruct Ea as [Hi Ea], Eb as [Hj Eb]. rewrite table_length in *.
  replace (Z.to_nat j) with (Z.to_nat i + (Z.to_nat j - Z.to_nat i))%nat in Eb by lia.
  destruct (table_between d (Z.to_nat j - Z.to_nat i) (Z.to_nat i) a b)
    as [Hab _]; [lia | exact Ea | exact Eb | exact Hab].
Qed.

Lemma table_flat (d : nat) (i j : nat) (a b : Q) :
  (i <= j)%nat ->
  nth_error (table evaluate d) i = Some a ->
  nth_error (table evaluate d) j = Some b ->
  a == b -> samplePoint evaluate d i = samplePoint evaluate d j.
Proof.
  intros Hij Ea Eb Hab.
  assert (j < S d)%nat.
  { rewrite <- (table_length d). apply nth_error_Some. congruence. }
  replace j with (i + (j - i))%nat in * by lia.
  destruct (table_between d (j - i) i a b) as [_ Hp];
    [lia | exact Ea | exact Eb | exact (Hp Hab)].
Qed.

End Table.

(** ** Running [getLengths] *)

Section Lengths.

Context {Point : Type} `{Vector Point}.
Variable evaluate : Q -> Point.

Lemma lengthsLoop_run (d : nat) (ps : list nat) :
  forall (last : Point) (sum : Q) (c : Curve),
    lengthsLoop evaluate d ps last sum c
    = (sums evaluate d ps last sum,
       mkCurve (cacheArcLengths c) (needsUpdate c) (__arcLengthDivisions c)
               (rev (map (fun p => ofNat p / ofNat d) ps) ++ samples c)).
Proof.
  induction ps as [|p ps IH]; intros last sum c.
  - destruct c; reflexivity.
  - simpl. unfold bind at 1. unfold getPoint at 1, bind at 1.
    cbn [recordSample ret]. unfold bind at 1. rewrite IH. cbn.
    now rewrite <- app_assoc.
Qed.

(** [getLengths] either hands out the cache or rebuilds. *)
Lemma getLengths_run (divisions : option nat) (c : Curve) :
  getLengths evaluate divisions c
  = if cacheHit (lengthsDivisions divisions c) c
    then (match cacheArcLengths c with Some cache => cache | None => [] end, c)
    else (table evaluate (lengthsDivisions divisions c),
          rebuilt evaluate (lengthsDivisions divisions c) c).
Proof.
  unfold getLengths, cacheHit.
  set (d := lengthsDivisions divisions c).
  assert (R : (setNeedsUpdate false ;;;
               last <- getPoint evaluate 0 ;;
               rest <- lengthsLoop evaluate d (seq 1 d) last 0 ;;
               setCacheArcLengths (0 :: rest) ;;; ret (0 :: rest)) c
              = (table evaluate d, rebuilt evaluate d c)).
  { unfold bind at 1. cbn [setNeedsUpdate]. unfold bind at 1.
    unfold getPoint at 1, bind at 1. cbn [recordSample ret].
    unfold bind at 1. rewrite lengthsLoop_run. unfold bind, ret. cbn.
    unfold table, rebuilt, sampleParams. cbn. now rewrite <- app_assoc. }
  destruct (cacheArcLengths c) as [cache|]; [|exact R].
  destruct ((length cache =? d + 1)%nat && negb (needsUpdate c));
    [reflexivity | exact R].
Qed.

Lemma orDefault_pos (o : option nat) (n : nat) :
  (0 < n)%nat -> (0 < orDefault o n)%nat.
Proof. destruct o as [[|m]|]; simpl; lia. Qed.

Lemma lengthsDivisions_pos (divisions : option nat) (c : Curve) :
  (0 < lengthsDivisions divisions c)%nat.
Proof. unfold lengthsDivisions. apply orDefault_pos, orDefault_pos. lia. Qed.

(** The table [getLengths] returns always has one entry more than the
    division count it worked with. *)
Lemma getLengths_length (divisions : option nat) (c : Curve) :
  length (fst (getLengths evaluate divisions c))
  = S (lengthsDivisions divisions c).
Proof.
  rewrite getLengths_run. unfold cacheHit.
  destruct (cacheArcLengths c) as [cache|]; simpl.
  - destruct (Nat.eqb_spec (length cache) (lengthsDivisions divisions c + 1));
      simpl.
    + destruct (needsUpdate c); simpl; [apply table_length | lia].
    + apply table_length.
  - apply table_length.
Qed.

(** On a curve whose cache is current the result is the table of the
    evaluator, reused or rebuilt. *)
Lemma getLengths_table (divisions : option nat) (c : Curve) :
  cacheCurrent evaluate c ->
  fst (getLengths evaluate divisions c)
  = table evaluate (lengthsDivisions divisions c).
Proof.
  intro Hc. rewrite getLengths_run. unfold cacheHit.
  destruct (cacheArcLengths c) as [cache|] eqn:Ec; simpl; [|reflexivity].
  destruct (Nat.eqb_spec (length cache) (lengthsDivisions divisions c + 1));
    simpl; [|reflexivity].
  destruct (needsUpdate c) eqn:En; simpl; [reflexivity|].
  rewrite (Hc cache Ec En) at 1. f_equal. lia.
Qed.

(** The state after [getLengths] differs from the one before at most in
    the cache, the flag and the instrumentation. *)
Lemma getLengths_config (divisions : option nat) (c : Curve) :
  __arcLengthDivisions (snd (getLengths evaluate divisions c))
  = __arcLengthDivisions c.
Proof.
  rewrite getLengths_run.
  destruct (cacheHit (lengthsDivisions divisions c) c); reflexivity.
Qed.

(** ** The invariant [cacheCurrent] *)

Lemma cacheCurrent_new (n : option nat) : cacheCurrent evaluate (newCurve n).
Proof. intros cache E. discriminate. Qed.

Lemma cacheCurrent_rebuilt (d : nat) (c : Curve) :
  cacheCurrent evaluate (rebuilt evaluate d c).
Proof.
  intros cache E _. simpl in E. injection E as <-.
  rewrite table_length. f_equal. lia.
Qed.

Lemma cacheCurrent_getLengths (divisions : option nat) (c : Curve) :
  cacheCurrent evaluate c ->
  cacheCurrent evaluate (snd (getLengths evaluate divisions c)).
Proof.
  intro Hc. rewrite getLengths_run.
  destruct (cacheHit (lengthsDivisions divisions c) c); simpl;
    [exact Hc | apply cacheCurrent_rebuilt].
Qed.

Lemma cacheCurrent_updateArcLengths (c : Curve) :
  cacheCurrent evaluate (snd (updateArcLengths evaluate c)).
Proof.
  unfold updateArcLengths. rewrite run_bind, run_bind.
  cbn [ret snd]. rewrite getLengths_run.
  unfold cacheHit. cbn [setNeedsUpdate snd fst needsUpdate cacheArcLengths].
  destruct (cacheArcLengths c); rewrite ?andb_false_r;
    apply cacheCurrent_rebuilt.
Qed.

Lemma cacheCurrent_samples (c : Curve) (l : list Q) :
  cacheCurrent evaluate c ->
  cacheCurrent evaluate
    (mkCurve (cacheArcLengths c) (needsUpdate c) (__arcLengthDivisions c) l).
Proof. intros Hc cache E N. exact (Hc cache E N). Qed.

End Lengths.

(** ** The binary search *)

Section Search.

Variable arr : list Q.
Variable target : Q.

Lemma midpoint_bounds (low high : Z) :
  (low <= high)%Z -> (low <= low + (high - low) / 2 <= high)%Z.
Proof.
  intro Hle.
  assert (0 <= (high - low) / 2)%Z by (apply Z.div_pos; lia).
  assert ((high - low) / 2 <= high - low)%Z
    by (apply Z.div_le_upper_bound; lia).
  lia.
Qed.

(** With [high - low < fuel] the loop has left by itself before the fuel
    is used up: more fuel changes nothing. *)
Lemma search_fuel (fuel : nat) :
  forall (extra : nat) (low high : Z),
    (high - low < Z.of_nat fuel)%Z ->
    search (fuel + extra) arr target low high = search fuel arr target low high.
Proof.
  induction fuel as [|fuel IH]; intros extra low high Hf.
  - destruct extra as [|extra]; [reflexivity|]. simpl.
    destruct (Z.leb_spec low high); [lia | reflexivity].
  - simpl. destruct (Z.leb_spec low high) as [Hle|]; [|reflexivity].
    pose proof (midpoint_bounds low high Hle) as Hm.
    destruct (at_index arr (low + (high - low) / 2)); [|reflexivity].
    destruct (Qcompare (q - target) 0); [reflexivity | |]; apply IH; lia.
Qed.

Hypothesis arr_sorted : nonDecreasing arr.

(** The loop invariant: everything before [low] is below the target,
    everything after [high] is above it.  The loop ends on an entry equal
    to the target or on the boundary between the two. *)
Lemma search_spec (fuel : nat) :
  forall low high : Z,
    (0 <= low)%Z -> (high < Z.of_nat (length arr))%Z -> (low <= high + 1)%Z ->
    (high - low < Z.of_nat fuel)%Z ->
    (forall j a, (j < low)%Z -> at_index arr j = Some a -> a < target) ->
    (forall j a, (high < j)%Z -> at_index arr j = Some a -> target < a) ->
    (low - 1 <= search fuel arr target low high <= high)%Z /\
    ((exists a, at_index arr (search fuel arr target low high) = Some a /\
                a == target) \/
     ((forall j a, (j <= search fuel arr target low high)%Z ->
                   at_index arr j = Some a -> a < target) /\
      (forall j a, (search fuel arr target low high < j)%Z ->
                   at_index arr j = Some a -> target < a))).
Proof.
  induction fuel as [|fuel IH]; intros low high H0 HN Hlh Hf Hlo Hhi.
  - simpl. split; [lia|]. right. split; [|exact Hhi].
    intros j a Hj. apply Hlo. lia.
  - simpl. destruct (Z.leb_spec low high) as [Hle|Hgt].
    + pose proof (midpoint_bounds low high Hle) as Hm.
      set (i := (low + (high - low) / 2)%Z) in *.
      destruct (at_index_in_range arr i ltac:(lia)) as [a Ea]. rewrite Ea.
      destruct (Qcompare_spec (a - target) 0) as [Heq|Hlt|Hgt'].
      * split; [lia|]. left. exists a. split; [exact Ea | lra].
      * destruct (IH (i + 1)%Z high) as [Hr Hc]; try lia; try exact Hhi.
        { intros j b Hj Eb.
          assert (b <= a) by (apply (arr_sorted j i b a); [lia | exact Eb | exact Ea]).
          lra. }
        split; [lia | exact Hc].
      * destruct (IH low (i - 1)%Z) as [Hr Hc]; try lia; try exact Hlo.
        { intros j b Hj Eb.
          assert (a <= b) by (apply (arr_sorted i j a b); [lia | exact Ea | exact Eb]).
          lra. }
        split; [lia | exact Hc].
    + split; [lia|]. right. split; [|exact Hhi].
      intros j a Hj. apply Hlo. lia.
Qed.

Lemma searchIndex_spec :
  (-1 <= searchIndex arr target < Z.of_nat (length arr))%Z /\
  ((exists a, at_index arr (searchIndex arr target) = Some a /\ a == target) \/
   ((forall j a, (j <= searchIndex arr target)%Z ->
                 at_index arr j = Some a -> a < target) /\
    (forall j a, (searchIndex arr target < j)%Z ->
                 at_index arr j = Some a -> target < a))).
Proof.
  unfold searchIndex.
  destruct (search_spec (length arr) 0 (Z.of_nat (length arr) - 1)) as [Hr Hc];
    try lia.
  - intros j a Hj E. apply at_index_Some in E. lia.
  - intros j a Hj E. apply at_index_Some in E. lia.
  - split; [lia | exact Hc].
Qed.

End Search.

(** ** The interpolation *)

Lemma jsdiv_nonzero (a b : Q) : ~ b == 0 -> jsdiv a b = Some (a / b).
Proof.
  intro Hb. unfold jsdiv. destruct (Qeq_bool b 0) eqn:E; [|reflexivity].
  apply Qeq_bool_eq in E. contradiction.
Qed.

Lemma inject_Z_nonzero (z : Z) : z <> 0%Z -> ~ inject_Z z == 0.
Proof.
  intros Hz E. apply Hz. unfold Qeq in E. simpl in E. lia.
Qed.

Lemma interpolate_exact (arr : list Q) (target : Q) (i : Z) (a : Q) :
  (2 <= length arr)%nat -> at_index arr i = Some a -> a == target ->
  interpolate arr target i
  = Some (inject_Z i / inject_Z (Z.of_nat (length arr) - 1)).
Proof.
  intros HN Ea Heq. unfold interpolate. rewrite Ea.
  apply Qeq_eq_bool in Heq. rewrite Heq.
  apply jsdiv_nonzero, inject_Z_nonzero. lia.
Qed.

Lemma interpolate_between (arr : list Q) (target : Q) (i : Z) (a b : Q) :
  (2 <= length arr)%nat ->
  at_index arr i = Some a -> at_index arr (i + 1) = Some b ->
  a < target -> target < b ->
  interpolate arr target i
  = Some ((inject_Z i + (target - a) / (b - a))
          / inject_Z (Z.of_nat (length arr) - 1)).
Proof.
  intros HN Ea Eb Ha Hb. unfold interpolate. rewrite Ea, Eb.
  destruct (Qeq_bool a target) eqn:E.
  - apply Qeq_bool_eq in E. lra.
  - rewrite (jsdiv_nonzero (target - a) (b - a)) by lra.
    apply jsdiv_nonzero, inject_Z_nonzero. lia.
Qed.

(** [getUtoTmapping] is [remap] on the table of [getLengths()]. *)
Lemma getUtoTmapping_run {Point : Type} `{Vector Point} (evaluate : Q -> Point)
  (u : Q) (distance : option Q) (c : Curve) :
  getUtoTmapping evaluate u distance c
  = (remap (fst (getLengths evaluate None c)) u distance,
     snd (getLengths evaluate None c)).
Proof.
  unfold getUtoTmapping, remap. rewrite run_bind.
  destruct (targetArcLength u distance (fst (getLengths evaluate None c)));
    reflexivity.
Qed.

(** ** Every reachable curve has a current cache *)

Section Invariant.

Context {Point : Type} `{Vector Point}.
Variable evaluate : Q -> Point.

Lemma cacheCurrent_getPoint (t : Q) (c : Curve) :
  cacheCurrent evaluate c -> cacheCurrent evaluate (snd (getPoint evaluate t c)).
Proof. intro Hc. exact (cacheCurrent_samples evaluate c _ Hc). Qed.

Lemma cacheCurrent_forEach {A B : Type} (body : A -> M B) (xs : list A) :
  (forall x c, cacheCurrent evaluate c -> cacheCurrent evaluate (snd (body x c))) ->
  forall c, cacheCurrent evaluate c ->
            cacheCurrent evaluate (snd (forEach body xs c)).
Proof.
  intro Hb. induction xs as [|x xs IH]; intros c Hc; [exact Hc|].
  cbn [forEach]. rewrite !run_bind. cbn [ret snd]. apply IH, Hb, Hc.
Qed.

Lemma cacheCurrent_getUtoTmapping (u : Q) (distance : option Q) (c : Curve) :
  cacheCurrent evaluate c ->
  cacheCurrent evaluate (snd (getUtoTmapping evaluate u distance c)).
Proof.
  intro Hc. rewrite getUtoTmapping_run. cbn [snd].
  now apply cacheCurrent_getLengths.
Qed.

Lemma cacheCurrent_getPointAt (u : Q) (c : Curve) :
  cacheCurrent evaluate c ->
  cacheCurrent evaluate (snd (getPointAt evaluate u c)).
Proof.
  intro Hc. unfold getPointAt. rewrite run_bind.
  pose proof (cacheCurrent_getUtoTmapping u None c Hc) as Hc'.
  destruct (fst (getUtoTmapping evaluate u None c)) as [t|]; [|exact Hc'].
  rewrite run_bind. cbn [ret snd]. now apply cacheCurrent_getPoint.
Qed.

Lemma cacheCurrent_getTangent (t : Q) (c : Curve) :
  cacheCurrent evaluate c ->
  cacheCurrent evaluate (snd (getTangent evaluate t c)).
Proof.
  intro Hc. unfold getTangent. rewrite !run_bind. cbn [ret snd].
  now apply cacheCurrent_getPoint, cacheCurrent_getPoint.
Qed.

Lemma cacheCurrent_getTangentAt (u : Q) (c : Curve) :
  cacheCurrent evaluate c ->
  cacheCurrent evaluate (snd (getTangentAt evaluate u c)).
Proof.
  intro Hc. unfold getTangentAt. rewrite run_bind.
  pose proof (cacheCurrent_getUtoTmapping u None c Hc) as Hc'.
  destruct (fst (getUtoTmapping evaluate u None c)) as [t|]; [|exact Hc'].
  rewrite run_bind. cbn [ret snd]. now apply cacheCurrent_getTangent.
Qed.

Lemma reachable_cacheCurrent (c : Curve) :
  Reachable evaluate c -> cacheCurrent evaluate c.
Proof.
  induction 1 as [n | c n _ IH | c t _ IH | c u _ IH | c d _ IH | c d _ IH
                  | c _ IH | c d _ IH | c _ IH | c u dist _ IH | c t _ IH
                  | c u _ IH].
  - apply cacheCurrent_new.
  - intros cache E N. exact (IH cache E N).
  - now apply cacheCurrent_getPoint.
  - now apply cacheCurrent_getPointAt.
  - unfold getPoints. apply cacheCurrent_forEach; [|exact IH].
    intros x c0. apply cacheCurrent_getPoint.
  - unfold getSpacedPoints. apply cacheCurrent_forEach; [|exact IH].
    intros x c0. apply cacheCurrent_getPointAt.
  - unfold getLength. rewrite run_bind. cbn [ret snd].
    now apply cacheCurrent_getLengths.
  - now apply cacheCurrent_getLengths.
  - apply cacheCurrent_updateArcLengths.
  - now apply cacheCurrent_getUtoTmapping.
  - now apply cacheCurrent_getTangent.
  - now apply cacheCurrent_getTangentAt.
Qed.

End Invariant.

(** ** The shapes on a line *)

#[export] Instance lineMetric : Metric Z.
Proof.
  split.
  - intros a b. simpl. change 0 with (inject_Z 0). rewrite <- Zle_Qle. lia.
  - intros a b. simpl. change 0 with (inject_Z 0). rewrite inject_Z_injective. lia.
Qed.

Lemma stairs_ext (x y : Q) : x == y -> stairs x = stairs y.
Proof. intro E. unfold stairs. now rewrite E. Qed.

(** ** The arc-length table: shape and monotonicity *)

(** C2.  On a curve whose cache is current, and with a distance that is
    never negative, the table [getLengths(divisions)] returns for a positive
    division count has [divisions + 1] entries, starts with 0, and every
    entry is at least the one before it. *)
Theorem getLengths_monotone {Point : Type} `{Metric Point}
  (evaluate : Q -> Point) (c : Curve) (divisions : nat) :
  (0 < divisions)%nat ->
  cacheCurrent evaluate c ->
  let lengths := fst (getLengths evaluate (Some divisions) c) in
  length lengths = (divisions + 1)%nat /\
  nth_error lengths 0 = Some 0 /\
  (forall (i : nat) (a b : Q),
      nth_error lengths i = Some a -> nth_error lengths (S i) = Some b ->
      a <= b) /\
  nonDecreasing lengths.
Proof.
  intros Hd Hc lengths.
  assert (E : lengths = table evaluate divisions).
  { unfold lengths. rewrite (getLengths_table evaluate _ c Hc).
    unfold lengthsDivisions. destruct divisions; [lia | reflexivity]. }
  rewrite E. split; [rewrite table_length; lia|].
  split; [reflexivity|]. split.
  - intros i a b Ea Eb.
    apply (table_nonDecreasing evaluate divisions (Z.of_nat i) (Z.of_nat (S i)));
      [lia | now rewrite at_index_nat | now rewrite at_index_nat].
  - apply table_nonDecreasing.
Qed.

Lemma getLengths_monotone_witness :
  let lengths := fst (getLengths stairs (Some 10%nat) (newCurve None)) in
  length lengths = 11%nat /\
  nth_error lengths 0 = Some 0 /\
  (forall (i : nat) (a b : Q),
      nth_error lengths i = Some a -> nth_error lengths (S i) = Some b ->
      a <= b) /\
  nonDecreasing lengths.
Proof.
  apply (getLengths_monotone stairs (newCurve None) 10).
  - lia.
  - apply cacheCurrent_new.
Defined.

(** ** The cache *)

(** After a [getLengths], a curve that has the cache, the flag and the
    configured resolution that call left answers the same division count
    with the same table and is left as it is. *)
Lemma getLengths_stable {Point : Type} `{Vector Point}
  (evaluate : Q -> Point) (divisions : option nat) (c c1 : Curve) :
  cacheArcLengths c1 = cacheArcLengths (snd (getLengths evaluate divisions c)) ->
  needsUpdate c1 = needsUpdate (snd (getLengths evaluate divisions c)) ->
  __arcLengthDivisions c1
  = __arcLengthDivisions (snd (getLengths evaluate divisions c)) ->
  getLengths evaluate divisions c1
  = (fst (getLengths evaluate divisions c), c1).
Proof.
  intros Hcache Hflag Hconf.
  rewrite getLengths_config in Hconf.
  assert (Hd : lengthsDivisions divisions c1 = lengthsDivisions divisions c).
  { unfold lengthsDivisions. now rewrite Hconf. }
  rewrite (getLengths_run evaluate divisions c1), Hd.
  unfold cacheHit at 1. rewrite Hcache, Hflag.
  rewrite (getLengths_run evaluate divisions c).
  destruct (cacheHit (lengthsDivisions divisions c) c) eqn:Hit.
  - cbn [fst snd]. unfold cacheHit in Hit. rewrite Hit. reflexivity.
  - cbn [fst snd rebuilt cacheArcLengths needsUpdate]. rewrite table_length.
    replace (S (lengthsDivisions divisions c) =? lengthsDivisions divisions c + 1)%nat
      with true by (symmetry; apply Nat.eqb_eq; lia).
    reflexivity.
Qed.

Lemma updateArcLengths_run {Point : Type} `{Vector Point}
  (evaluate : Q -> Point) (c : Curve) :
  updateArcLengths evaluate c
  = (tt, rebuilt evaluate (lengthsDivisions None c) c).
Proof.
  unfold updateArcLengths. rewrite run_bind, run_bind. cbn [ret].
  rewrite getLengths_run. unfold cacheHit.
  cbn [setNeedsUpdate snd fst needsUpdate cacheArcLengths].
  destruct (cacheArcLengths c); rewrite ?andb_false_r; reflexivity.
Qed.

(** C6, as the code has it.  Once the flag is set, [getLengths] samples the
    evaluator and rebuilds, whatever is cached.  [updateArcLengths] does not
    only set the flag: it makes that call itself, [getLengths()], which
    samples the evaluator at every parameter of the default division count,
    stores the fresh table and clears the flag.  The next [getLengths] at
    that division count returns this fresh table (whatever was cached before
    the update) without sampling again; at any other positive division
    count it rebuilds. *)
Theorem updateArcLengths_rebuilds {Point : Type} `{Vector Point}
  (evaluate : Q -> Point) (c : Curve) :
  let divisions := lengthsDivisions None c in
  let c' := snd (updateArcLengths evaluate c) in
  (forall o : option nat, needsUpdate c = true ->
     getLengths evaluate o c
     = (table evaluate (lengthsDivisions o c),
        rebuilt evaluate (lengthsDivisions o c) c) /\
     resamples evaluate o c) /\
  c' = rebuilt evaluate divisions c /\
  samples c' = rev (sampleParams divisions) ++ samples c /\
  getLengths evaluate None c' = (table evaluate divisions, c') /\
  (forall n : nat, S n <> divisions ->
     getLengths evaluate (Some (S n)) c'
     = (table evaluate (S n), rebuilt evaluate (S n) c') /\
     resamples evaluate (Some (S n)) c').
Proof.
  intros divisions c'.
  assert (Hgrow : forall d (c0 : Curve),
             samples (rebuilt evaluate d c0) <> samples c0).
  { intros d c0 Hs. cbn [rebuilt samples] in Hs.
    apply (f_equal (@length Q)) in Hs.
    rewrite length_app, length_rev in Hs. simpl in Hs. lia. }
  split.
  { intros o Hdirty.
    assert (R : getLengths evaluate o c
                = (table evaluate (lengthsDivisions o c),
                   rebuilt evaluate (lengthsDivisions o c) c)).
    { rewrite getLengths_run. unfold cacheHit. rewrite Hdirty.
      destruct (cacheArcLengths c); rewrite ?andb_false_r; reflexivity. }
    split; [exact R|]. unfold resamples. rewrite R. apply Hgrow. }
  assert (E : c' = rebuilt evaluate divisions c).
  { unfold c'. now rewrite updateArcLengths_run. }
  clearbody c'. subst c'.
  split; [reflexivity|]. split; [reflexivity|].
  split.
  - rewrite getLengths_run.
    change (lengthsDivisions None (rebuilt evaluate divisions c)) with divisions.
    unfold cacheHit. cbn [rebuilt cacheArcLengths needsUpdate].
    rewrite table_length.
    replace (S divisions =? divisions + 1)%nat with true
      by (symmetry; apply Nat.eqb_eq; lia).
    reflexivity.
  - intros n Hn.
    assert (R : getLengths evaluate (Some (S n)) (rebuilt evaluate divisions c)
                = (table evaluate (S n),
                   rebuilt evaluate (S n) (rebuilt evaluate divisions c))).
    { rewrite getLengths_run.
      change (lengthsDivisions (Some (S n)) (rebuilt evaluate divisions c))
        with (S n).
      unfold cacheHit. cbn [rebuilt cacheArcLengths needsUpdate].
      rewrite table_length.
      replace (S divisions =? S n + 1)%nat with false
        by (symmetry; apply Nat.eqb_neq; lia).
      reflexivity. }
    split; [exact R|].
    unfold resamples. rewrite R. apply Hgrow.
Qed.

Lemma updateArcLengths_rebuilds_witness :
  let c := mkCurve (Some (table stairs 10)) true (Some 10%nat) [] in
  let c' := snd (updateArcLengths stairs c) in
  resamples stairs None c /\
  getLengths stairs None c' = (table stairs 10, c').
Proof.
  intros c c'.
  destruct (updateArcLengths_rebuilds stairs c) as [Hdirty [_ [_ [Hnext _]]]].
  split; [apply (Hdirty None eq_refl) | exact Hnext].
Defined.

(** C6, as stated, fails: after [updateArcLengths] the next [getLengths()]
    finds the table that the update has just rebuilt and does not sample. *)
Lemma next_getLengths_does_not_resample :
  let c := snd (getLengths stairs None (newCurve (Some 2%nat))) in
  let c' := snd (updateArcLengths stairs c) in
  ~ resamples stairs None c'.
Proof.
  intros c c' Hr. apply Hr. vm_compute. reflexivity.
Qed.

(** ** The target arc length *)

(** C4, as the code has it.  A distance that is supplied and is not 0 is the
    target verbatim and [u] plays no part in the result; a supplied distance
    of 0 is falsy in [if (distance)] and is treated like an omitted one: the
    target is then [u] times the total length. *)
Theorem distance_verbatim_unless_zero {Point : Type} `{Vector Point}
  (evaluate : Q -> Point) (c : Curve) (u u' d : Q) (arcLengths : list Q) :
  (~ d == 0 ->
     targetArcLength u (Some d) arcLengths = Some d /\
     getUtoTmapping evaluate u (Some d) c = getUtoTmapping evaluate u' (Some d) c) /\
  (d == 0 ->
     targetArcLength u (Some d) arcLengths = targetArcLength u None arcLengths /\
     getUtoTmapping evaluate u (Some d) c = getUtoTmapping evaluate u None c).
Proof.
  split; intro Hd.
  - assert (E : forall v l, targetArcLength v (Some d) l = Some d).
    { intros v l. unfold targetArcLength.
      destruct (Qeq_bool d 0) eqn:Eb; [|reflexivity].
      apply Qeq_bool_eq in Eb. contradiction. }
    split; [apply E|].
    rewrite !getUtoTmapping_run. unfold remap. now rewrite !E.
  - assert (E : forall l, targetArcLength u (Some d) l = targetArcLength u None l).
    { intro l. unfold targetArcLength. apply Qeq_eq_bool in Hd. now rewrite Hd. }
    split; [apply E|].
    rewrite !getUtoTmapping_run. unfold remap. now rewrite E.
Qed.

Lemma distance_verbatim_unless_zero_witness :
  targetArcLength (1 # 2) (Some 3) [0; 1; 2; 3; 4] = Some 3 /\
  getUtoTmapping stairs (1 # 2) (Some 3) (newCurve (Some 10%nat))
  = getUtoTmapping stairs 0 (Some 3) (newCurve (Some 10%nat)).
Proof.
  destruct (distance_verbatim_unless_zero stairs (newCurve (Some 10%nat))
              (1 # 2) 0 3 [0; 1; 2; 3; 4]) as [Hnz _].
  apply Hnz. intro E. discriminate E.
Defined.

(** C4, as stated, fails at the distance 0: on the staircase of total
    length 10 the call [getUtoTmapping(1/2, 0)] takes [1/2 * 10] as its
    target, not the supplied 0, and its result follows [u]. *)
Lemma distance_zero_not_verbatim :
  let c := newCurve (Some 10%nat) in
  let arcLengths := fst (getLengths stairs None c) in
  targetArcLength (1 # 2) (Some 0) arcLengths = Some ((1 # 2) * 10) /\
  targetArcLength (1 # 2) (Some 0) arcLengths <> Some 0 /\
  fst (getUtoTmapping stairs (1 # 2) (Some 0) c)
  <> fst (getUtoTmapping stairs 0 (Some 0) c).
Proof.
  intros c arcLengths. split; [|split].
  - vm_compute. reflexivity.
  - vm_compute. intro E. discriminate E.
  - vm_compute. intro E. discriminate E.
Qed.

(** ** The numerical tangent *)

(** C7.  For [t] in [0,1] the fallback [getTangent(t)] is the normalized
    difference of the evaluator at [t2 = min(t + 1e-4, 1)] and at
    [t1 = max(t - 1e-4, 0)]; both parameters lie in [0,1], and they are the
    only two the evaluator is called with. *)
Theorem getTangent_central_difference {Point : Type} `{Vector Point}
  (evaluate : Q -> Point) (c : Curve) (t : Q) :
  0 <= t <= 1 ->
  let t1 := Qmax (t - (1 # 10000)) 0 in
  let t2 := Qmin (t + (1 # 10000)) 1 in
  fst (getTangent evaluate t c) = normalize (sub (evaluate t2) (evaluate t1)) /\
  0 <= t1 <= 1 /\ 0 <= t2 <= 1 /\
  samples (snd (getTangent evaluate t c)) = t2 :: t1 :: samples c.
Proof.
  intros [Ht0 Ht1] t1 t2. split; [reflexivity|].
  split; [|split].
  - split; [apply Q.le_max_r | apply Q.max_lub; lra].
  - split; [apply Q.min_glb; unfold delta; lra | apply Q.le_min_r].
  - reflexivity.
Qed.

Lemma getTangent_central_difference_witness :
  fst (getTangent stairs 1 (newCurve None))
  = normalize (sub (stairs (Qmin (1 + (1 # 10000)) 1))
                   (stairs (Qmax (1 - (1 # 10000)) 0))).
Proof.
  apply (getTangent_central_difference stairs (newCurve None) 1).
  split; [discriminate | apply Qle_refl].
Defined.

(** ** Division counts that are 0 *)

Lemma getPoint_run {Point : Type} `{Vector Point} (evaluate : Q -> Point)
  (t : Q) (c : Curve) :
  getPoint evaluate t c
  = (evaluate t,
     mkCurve (cacheArcLengths c) (needsUpdate c) (__arcLengthDivisions c)
             (t :: samples c)).
Proof. reflexivity. Qed.

Lemma getPoints_run {Point : Type} `{Vector Point} (evaluate : Q -> Point)
  (params : list Q) (c : Curve) :
  forEach (getPoint evaluate) params c
  = (map evaluate params,
     mkCurve (cacheArcLengths c) (needsUpdate c) (__arcLengthDivisions c)
             (rev params ++ samples c)).
Proof.
  revert c. induction params as [|t params IH]; intro c.
  - destruct c; reflexivity.
  - cbn [forEach]. rewrite run_bind, getPoint_run. cbn [fst snd].
    rewrite run_bind, IH. cbn. now rewrite <- app_assoc.
Qed.

Lemma forEach_map {A B C : Type} (f : A -> B) (body : B -> M C) (xs : list A) :
  forall c, forEach (fun x => body (f x)) xs c = forEach body (map f xs) c.
Proof.
  induction xs as [|x xs IH]; intro c; [reflexivity|].
  cbn [forEach map]. rewrite !run_bind. now rewrite IH.
Qed.

(** ** The remapping on a current table *)

Section Remap.

Context {Point : Type} `{Metric Point}.
Variable evaluate : Q -> Point.
Variable d : nat.
Hypothesis d_pos : (0 < d)%nat.

Let T : list Q := table evaluate d.
Let N : Z := Z.of_nat (length T).

Lemma table_N : N = (Z.of_nat d + 1)%Z.
Proof. unfold N, T. rewrite table_length. lia. Qed.

Lemma table_at_0 : at_index T 0 = Some 0.
Proof. reflexivity. Qed.

Lemma table_last : exists last, at_index T (N - 1) = Some last /\ 0 <= last.
Proof.
  destruct (at_index_in_range T (N - 1)) as [last E].
  { pose proof table_N. unfold N in *. lia. }
  exists last. split; [exact E|].
  apply (table_nonDecreasing evaluate d 0%Z (N - 1)%Z 0 last);
    [pose proof table_N; lia | exact table_at_0 | exact E].
Qed.

(** For a target between 0 and the total length the search ends inside
    the table, on an entry equal to the target or on the last entry below
    it, and the interpolation is defined. *)
Lemma remap_cases (last target : Q) :
  at_index T (N - 1) = Some last -> 0 <= target <= last ->
  exists a, at_index T (searchIndex T target) = Some a /\
    (forall j b, at_index T j = Some b -> b < target ->
                 (j <= searchIndex T target)%Z) /\
    ((a == target /\
      interpolate T target (searchIndex T target)
      = Some (inject_Z (searchIndex T target) / inject_Z (N - 1))) \/
     (a < target /\
      largestAtMost T target (searchIndex T target) /\
      exists b, at_index T (searchIndex T target + 1) = Some b /\
        interpolate T target (searchIndex T target)
        = Some ((inject_Z (searchIndex T target) + (target - a) / (b - a))
                / inject_Z (N - 1)))).
Proof.
  intros Elast [Ht0 Ht1].
  pose proof table_N as HN.
  assert (H2 : (2 <= length T)%nat) by (unfold N in HN; lia).
  pose proof (table_nonDecreasing evaluate d) as Hs. fold T in Hs.
  destruct (searchIndex_spec T target Hs) as [Hr [[a [Ea Heq]] | [Hlo Hhi]]].
  - exists a. split; [exact Ea|]. split.
    + intros j b Eb Hb.
      destruct (Z.le_gt_cases j (searchIndex T target)) as [|Hgt]; [assumption|].
      assert (a <= b)
        by (apply (Hs (searchIndex T target) j a b); [lia | exact Ea | exact Eb]).
      lra.
    + left. split; [exact Heq|]. now apply (interpolate_exact T target _ a).
  - set (i := searchIndex T target) in *. fold N in Hr.
    assert (Hi0 : (0 <= i)%Z).
    { destruct (Z.le_gt_cases 0 i) as [|Hneg]; [assumption|].
      assert (target < 0) by (apply (Hhi 0%Z 0); [lia | exact table_at_0]).
      lra. }
    assert (HiN : (i < N - 1)%Z).
    { destruct (Z.lt_ge_cases i (N - 1)) as [|Hge]; [assumption|].
      assert (last < target) by (apply (Hlo (N - 1)%Z last); [lia | exact Elast]).
      lra. }
    destruct (at_index_in_range T i) as [a Ea]; [fold N; lia|].
    destruct (at_index_in_range T (i + 1)) as [b Eb]; [fold N; lia|].
    assert (Ha : a < target) by (apply (Hlo i a); [lia | exact Ea]).
    assert (Hb : target < b) by (apply (Hhi (i + 1)%Z b); [lia | exact Eb]).
    exists a. split; [exact Ea|]. split.
    + intros j c Ec Hc.
      destruct (Z.le_gt_cases j i) as [|Hgt]; [assumption|].
      assert (target < c) by (apply (Hhi j c); [lia | exact Ec]). lra.
    + right. split; [exact Ha|]. split.
      * split; [exists a; split; [exact Ea | lra]|].
        intros j c Ec Hc.
        destruct (Z.le_gt_cases j i) as [|Hgt]; [assumption|].
        assert (target < c) by (apply (Hhi j c); [lia | exact Ec]). lra.
      * exists b. split; [exact Eb|].
        now apply (interpolate_between T target i a b).
Qed.

Hypothesis evaluate_ext : forall x y : Q, x == y -> evaluate x = evaluate y.

Lemma samplePoint_param (k : nat) :
  samplePoint evaluate d k = evaluate (ofNat k / ofNat d).
Proof.
  destruct k as [|k]; [|reflexivity]. simpl. apply evaluate_ext.
  unfold Qdiv. change (ofNat 0) with 0. now rewrite Qmult_0_l.
Qed.

(** The parameter of an exact hit evaluates to the sample point of that
    index. *)
Lemma exact_hit_point (i : Z) (a : Q) :
  at_index T i = Some a ->
  evaluate (inject_Z i / inject_Z (N - 1)) = samplePoint evaluate d (Z.to_nat i).
Proof.
  intro Ea. apply at_index_Some in Ea. destruct Ea as [Hi _].
  rewrite samplePoint_param. apply evaluate_ext. unfold ofNat.
  rewrite Z2Nat.id by lia. rewrite table_N.
  replace (Z.of_nat d + 1 - 1)%Z with (Z.of_nat d) by lia. reflexivity.
Qed.

(** At [u = 0] and [u = 1] the search hits an entry exactly; the point at
    the parameter returned is the start point, respectively the end
    point, of the curve. *)
Lemma remap_ends (last : Q) :
  at_index T (N - 1) = Some last ->
  (exists a, at_index T (searchIndex T (0 * last)) = Some a /\ a == 0 /\
     interpolate T (0 * last) (searchIndex T (0 * last))
     = Some (inject_Z (searchIndex T (0 * last)) / inject_Z (N - 1)) /\
     evaluate (inject_Z (searchIndex T (0 * last)) / inject_Z (N - 1))
     = evaluate 0) /\
  (exists a, at_index T (searchIndex T (1 * last)) = Some a /\ a == last /\
     interpolate T (1 * last) (searchIndex T (1 * last))
     = Some (inject_Z (searchIndex T (1 * last)) / inject_Z (N - 1)) /\
     evaluate (inject_Z (searchIndex T (1 * last)) / inject_Z (N - 1))
     = evaluate 1).
Proof.
  intro Elast.
  assert (Hl : 0 <= last).
  { destruct table_last as [l [El Hl]]. rewrite Elast in El.
    injection El as <-. exact Hl. }
  pose proof table_N as HN.
  split.
  - destruct (remap_cases last (0 * last) Elast ltac:(lra))
      as [a [Ea [_ [[Heq Hi] | [Ha [[_ Hmax] _]]]]]].
    + exists a. split; [exact Ea|]. split; [lra|]. split; [exact Hi|].
      rewrite (exact_hit_point _ a Ea). symmetry.
      pose proof Ea as Ea'. apply at_index_Some in Ea'. destruct Ea' as [Hr Ea'].
      apply (table_flat evaluate d 0%nat (Z.to_nat (searchIndex T (0 * last))) 0 a);
        [lia | reflexivity | exact Ea' | lra].
    + exfalso.
      pose proof Ea as Ea'. apply at_index_Some in Ea'. destruct Ea' as [Hr _].
      assert (0 <= a)
        by (apply (table_nonDecreasing evaluate d 0%Z (searchIndex T (0 * last)) 0 a);
            [lia | exact table_at_0 | exact Ea]).
      lra.
  - destruct (remap_cases last (1 * last) Elast ltac:(lra))
      as [a [Ea [_ [[Heq Hi] | [Ha [[_ Hmax] _]]]]]].
    + exists a. split; [exact Ea|]. split; [lra|]. split; [exact Hi|].
      rewrite (exact_hit_point _ a Ea).
      pose proof Ea as Ea'. apply at_index_Some in Ea'. destruct Ea' as [Hr Ea'].
      pose proof Elast as El'. apply at_index_Some in El'. destruct El' as [_ El'].
      rewrite (table_flat evaluate d (Z.to_nat (searchIndex T (1 * last)))
                 (Z.to_nat (N - 1)) a last); [| fold N in Hr; lia | exact Ea' | exact El' | lra].
      rewrite samplePoint_param. apply evaluate_ext.
      rewrite HN. replace (Z.to_nat (Z.of_nat d + 1 - 1)) with d by lia.
      unfold ofNat. field. apply inject_Z_nonzero. lia.
    + exfalso.
      assert ((N - 1 <= searchIndex T (1 * last))%Z)
        by (apply (Hmax (N - 1)%Z last); [exact Elast | lra]).
      pose proof Ea as Ea'. apply at_index_Some in Ea'. destruct Ea' as [Hr _].
      fold N in Hr. assert (E : searchIndex T (1 * last) = (N - 1)%Z) by lia.
      rewrite E in Ea. rewrite Elast in Ea. injection Ea as <-. lra.
Qed.

End Remap.

(** ** The ends of the remapping *)

Lemma increasingb_sound (arr : list Q) :
  increasingb arr = true -> increasing arr.
Proof.
  intro Hb.
  assert (Hn : forall (n i : nat) (a b : Q),
             nth_error arr i = Some a -> nth_error arr (S (i + n)) = Some b ->
             a < b).
  { revert Hb. induction arr as [|x arr IH]; intros Hb n i a b Ea Eb.
    - destruct i; discriminate.
    - destruct arr as [|y arr];
        [simpl in Eb; destruct (i + n)%nat; discriminate|].
      cbn [increasingb] in Hb. apply andb_true_iff in Hb. destruct Hb as [Hxy Hb].
      apply negb_true_iff in Hxy.
      assert (x < y).
      { apply Qnot_le_lt. intro Hle. apply Qle_bool_iff in Hle. congruence. }
      destruct i as [|i].
      + simpl in Ea. injection Ea as <-. destruct n as [|n].
        * simpl in Eb. injection Eb as <-. assumption.
        * apply Qlt_trans with y; [assumption|].
          apply (IH Hb n 0%nat y b); [reflexivity | exact Eb].
      + apply (IH Hb n i a b); [exact Ea | exact Eb]. }
  intros i j a b Hij Ea Eb.
  apply at_index_Some in Ea. apply at_index_Some in Eb.
  destruct Ea as [Hi Ea], Eb as [Hj Eb].
  apply (Hn (Z.to_nat j - Z.to_nat i - 1)%nat (Z.to_nat i) a b Ea).
  replace (S (Z.to_nat i + (Z.to_nat j - Z.to_nat i - 1))) with (Z.to_nat j) by lia.
  exact Eb.
Qed.

Lemma getPointAt_run {Point : Type} `{Vector Point} (evaluate : Q -> Point)
  (u : Q) (c : Curve) :
  fst (getPointAt evaluate u c)
  = option_map evaluate (fst (getUtoTmapping evaluate u None c)).
Proof.
  unfold getPointAt. rewrite run_bind.
  destruct (fst (getUtoTmapping evaluate u None c)); [|reflexivity].
  rewrite run_bind. reflexivity.
Qed.

(** C1, as the code has it.  On a curve whose cache is current,
    [getPointAt(0)] is [getPoint(0)] and [getPointAt(1)] is [getPoint(1)].
    The parameter behind them is [t = 0], respectively [t = 1], when the
    table is strictly increasing; with zero-length steps at an end the
    search may stop on another sample of the same point. *)
Theorem getPointAt_ends {Point : Type} `{Metric Point}
  (evaluate : Q -> Point) (c : Curve) :
  (forall x y : Q, x == y -> evaluate x = evaluate y) ->
  cacheCurrent evaluate c ->
  fst (getPointAt evaluate 0 c) = Some (evaluate 0) /\
  fst (getPointAt evaluate 1 c) = Some (evaluate 1) /\
  (increasing (fst (getLengths evaluate None c)) ->
   (exists t0, fst (getUtoTmapping evaluate 0 None c) = Some t0 /\ t0 == 0) /\
   (exists t1, fst (getUtoTmapping evaluate 1 None c) = Some t1 /\ t1 == 1)).
Proof.
  intros Hext Hc.
  rewrite !getPointAt_run, !getUtoTmapping_run.
  rewrite (getLengths_table evaluate None c Hc). cbn [fst].
  set (d := lengthsDivisions None c).
  assert (Hd : (0 < d)%nat) by apply lengthsDivisions_pos.
  destruct (table_last evaluate d Hd) as [last [Elast Hl]].
  destruct (remap_ends evaluate d Hd Hext last Elast)
    as [[a0 [Ea0 [Ha0 [Hi0 Hp0]]]] [a1 [Ea1 [Ha1 [Hi1 Hp1]]]]].
  assert (R : forall u, remap (table evaluate d) u None
                        = interpolate (table evaluate d) (u * last)
                            (searchIndex (table evaluate d) (u * last))).
  { intro u. unfold remap, targetArcLength. now rewrite Elast. }
  rewrite !R, Hi0, Hi1. cbn [option_map].
  split; [now rewrite Hp0|]. split; [now rewrite Hp1|].
  intro Hinc.
  pose proof (table_N evaluate d) as HN.
  pose proof Ea0 as Er0. apply at_index_Some in Er0. destruct Er0 as [Hr0 _].
  pose proof Ea1 as Er1. apply at_index_Some in Er1. destruct Er1 as [Hr1 _].
  split.
  - eexists. split; [reflexivity|].
    assert (E : searchIndex (table evaluate d) (0 * last) = 0%Z).
    { destruct (Z.eq_dec (searchIndex (table evaluate d) (0 * last)) 0)
        as [|Hne]; [assumption|].
      assert (0 < a0)
        by (apply (Hinc 0%Z (searchIndex (table evaluate d) (0 * last)) 0 a0);
            [lia | reflexivity | exact Ea0]).
      lra. }
    rewrite E. unfold Qdiv. now rewrite Qmult_0_l.
  - eexists. split; [reflexivity|].
    assert (E : searchIndex (table evaluate d) (1 * last)
                = (Z.of_nat (length (table evaluate d)) - 1)%Z).
    { destruct (Z.eq_dec (searchIndex (table evaluate d) (1 * last))
                         (Z.of_nat (length (table evaluate d)) - 1))
        as [|Hne]; [assumption|].
      assert (a1 < last)
        by (apply (Hinc (searchIndex (table evaluate d) (1 * last))
                        (Z.of_nat (length (table evaluate d)) - 1)%Z a1 last);
            [lia | exact Ea1 | exact Elast]).
      lra. }
    rewrite E. field. apply inject_Z_nonzero. lia.
Qed.

Lemma getPointAt_ends_witness :
  let c := newCurve (Some 10%nat) in
  fst (getPointAt stairs 0 c) = Some (stairs 0) /\
  fst (getPointAt stairs 1 c) = Some (stairs 1) /\
  (exists t0, fst (getUtoTmapping stairs 0 None c) = Some t0 /\ t0 == 0) /\
  (exists t1, fst (getUtoTmapping stairs 1 None c) = Some t1 /\ t1 == 1).
Proof.
  intro c.
  destruct (getPointAt_ends stairs c stairs_ext (cacheCurrent_new stairs _))
    as [H0 [H1 Ht]].
  split; [exact H0|]. split; [exact H1|].
  apply Ht. apply increasingb_sound. vm_compute. reflexivity.
Defined.

(** C1, as stated, fails in its second half: on a curve that rests at its
    start point over the first sample step [getUtoTmapping(0)] is [1/2],
    and on one that has reached its end point before the last sample step
    [getUtoTmapping(1)] is [1/2]. *)
Lemma remap_ends_not_0_and_1 :
  (fst (getUtoTmapping lateStep 0 None (newCurve (Some 2%nat))) = Some (1 # 2) /\
   ~ (1 # 2) == 0) /\
  (fst (getUtoTmapping earlyStep 1 None (newCurve (Some 2%nat))) = Some (1 # 2) /\
   ~ (1 # 2) == 1).
Proof.
  split; (split; [vm_compute; reflexivity | intro E; discriminate E]).
Qed.

(** ** Search and interpolation *)

(** C3, as the code has it.  On a curve whose cache is current and for [u]
    in [0,1], with [target = u * table[N-1]], the search ends at an index
    [i] with [table[i] <= target] that no entry below the target comes
    after.  If [table[i]] equals the target (the search stops at the first
    such entry it probes, which is the largest index with
    [table[i] <= target] when the table is strictly increasing) the result
    is [i / (N - 1)]; otherwise [i] is the largest index with
    [table[i] <= target] and the result is
    [(i + (target - table[i]) / (table[i+1] - table[i])) / (N - 1)]. *)
Theorem remap_search_and_interpolation {Point : Type} `{Metric Point}
  (evaluate : Q -> Point) (c : Curve) (u : Q) :
  cacheCurrent evaluate c ->
  0 <= u <= 1 ->
  let arcLengths := fst (getLengths evaluate None c) in
  let N := Z.of_nat (length arcLengths) in
  let t := fst (getUtoTmapping evaluate u None c) in
  exists last a : Q,
    at_index arcLengths (N - 1) = Some last /\
    let target := u * last in
    let i := searchIndex arcLengths target in
    at_index arcLengths i = Some a /\ a <= target /\
    (forall j b, at_index arcLengths j = Some b -> b < target -> (j <= i)%Z) /\
    ((a == target /\
      t = Some (inject_Z i / inject_Z (N - 1)) /\
      (increasing arcLengths -> largestAtMost arcLengths target i)) \/
     (a < target /\
      largestAtMost arcLengths target i /\
      exists b, at_index arcLengths (i + 1) = Some b /\
        t = Some ((inject_Z i + (target - a) / (b - a)) / inject_Z (N - 1)))).
Proof.
  intros Hc [Hu0 Hu1] arcLengths N t.
  unfold t, N, arcLengths. rewrite getUtoTmapping_run.
  rewrite (getLengths_table evaluate None c Hc). cbn [fst].
  set (d := lengthsDivisions None c).
  assert (Hd : (0 < d)%nat) by apply lengthsDivisions_pos.
  destruct (table_last evaluate d Hd) as [last [Elast Hl]].
  assert (Ht : 0 <= u * last <= last) by nra.
  destruct (remap_cases evaluate d Hd last (u * last) Elast Ht)
    as [a [Ea [Hbelow Hcases]]].
  exists last, a. split; [exact Elast|]. cbn zeta.
  assert (R : remap (table evaluate d) u None
              = interpolate (table evaluate d) (u * last)
                  (searchIndex (table evaluate d) (u * last))).
  { unfold remap, targetArcLength. now rewrite Elast. }
  rewrite R. split; [exact Ea|].
  destruct Hcases as [[Heq Hi] | [Ha [Hmax [b [Eb Hi]]]]].
  - split; [lra|]. split; [exact Hbelow|]. left.
    split; [exact Heq|]. split; [exact Hi|].
    intro Hinc. split; [exists a; split; [exact Ea | lra]|].
    intros j b Eb Hb.
    destruct (Z.le_gt_cases j (searchIndex (table evaluate d) (u * last)))
      as [|Hgt]; [assumption|].
    assert (a < b)
      by (apply (Hinc (searchIndex (table evaluate d) (u * last)) j a b);
          [lia | exact Ea | exact Eb]).
    lra.
  - split; [lra|]. split; [exact Hbelow|]. right.
    split; [exact Ha|]. split; [exact Hmax|]. exists b. split; [exact Eb | exact Hi].
Qed.

Lemma remap_search_and_interpolation_witness :
  let c := newCurve (Some 10%nat) in
  let arcLengths := fst (getLengths stairs None c) in
  let N := Z.of_nat (length arcLengths) in
  let t := fst (getUtoTmapping stairs (1 # 4) None c) in
  exists last a : Q,
    at_index arcLengths (N - 1) = Some last /\
    let target := (1 # 4) * last in
    let i := searchIndex arcLengths target in
    at_index arcLengths i = Some a /\ a <= target /\
    (forall j b, at_index arcLengths j = Some b -> b < target -> (j <= i)%Z) /\
    ((a == target /\
      t = Some (inject_Z i / inject_Z (N - 1)) /\
      (increasing arcLengths -> largestAtMost arcLengths target i)) \/
     (a < target /\
      largestAtMost arcLengths target i /\
      exists b, at_index arcLengths (i + 1) = Some b /\
        t = Some ((inject_Z i + (target - a) / (b - a)) / inject_Z (N - 1)))).
Proof.
  apply (remap_search_and_interpolation stairs (newCurve (Some 10%nat)) (1 # 4)).
  - apply cacheCurrent_new.
  - split; discriminate.
Defined.

(** C3, as stated, fails where the table repeats the target: on the curve
    that has reached its end point before the last sample step the table is
    [0, 1, 1]; for [u = 1] the target is 1, the search stops at index 1 and
    the result is [1/2], while the largest index with an entry at most 1
    is 2. *)
Lemma search_not_largest :
  let c := newCurve (Some 2%nat) in
  let arcLengths := fst (getLengths earlyStep None c) in
  let target := 1 * 1 in
  arcLengths = [0; 1; 1] /\
  targetArcLength 1 None arcLengths = Some target /\
  searchIndex arcLengths target = 1%Z /\
  fst (getUtoTmapping earlyStep 1 None c) = Some (1 # 2) /\
  largestAtMost arcLengths target 2 /\
  ~ largestAtMost arcLengths target (searchIndex arcLengths target).
Proof.
  intros c arcLengths target.
  assert (E : arcLengths = [0; 1; 1]) by (vm_compute; reflexivity).
  split; [exact E|]. rewrite E.
  split; [reflexivity|]. split; [vm_compute; reflexivity|].
  split; [vm_compute; reflexivity|]. split.
  - split; [exists 1; split; [reflexivity | discriminate]|].
    intros j b Ej _. apply at_index_Some in Ej. simpl in Ej. lia.
  - intros [_ Hmax].
    assert (Hs : searchIndex [0; 1; 1] target = 1%Z) by (vm_compute; reflexivity).
    rewrite Hs in Hmax.
    specialize (Hmax 2%Z 1 eq_refl). assert (2 <= 1)%Z; [|lia].
    apply Hmax. discriminate.
Qed.

(** * Frenet frames: vector algebra *)

Local Open Scope R_scope.

Lemma vec3_eq (a b : Vector3) : x a = x b -> y a = y b -> z a = z b -> a = b.
Proof. destruct a, b; simpl; intros; subst; reflexivity. Qed.


Lemma dot_self_nonneg (a : Vector3) : 0 <= Vector3.dot a a.
Proof. unfold Vector3.dot. nra. Qed.

Lemma dot_self_zero (a : Vector3) : Vector3.dot a a = 0 -> a = vec3 0 0 0.
Proof.
  destruct a as [ax ay az]. unfold Vector3.dot. simpl. intro E.
  apply vec3_eq; simpl; nra.
Qed.

Lemma dot_self_pos (a : Vector3) : a <> vec3 0 0 0 -> 0 < Vector3.dot a a.
Proof.
  intro Ha. destruct (Rle_lt_or_eq_dec _ _ (dot_self_nonneg a)) as [|E];
    [assumption|].
  symmetry in E. apply dot_self_zero in E. contradiction.
Qed.

Lemma unit_dot (a : Vector3) : unit a <-> Vector3.dot a a = 1.
Proof.
  unfold unit, Vector3.length. split; intro E.
  - rewrite <- (sqrt_sqrt _ (dot_self_nonneg a)), E. ring.
  - rewrite E. apply sqrt_1.
Qed.

Lemma cross_dot_l (a b : Vector3) :
  Vector3.dot a (Vector3.crossVectors a b) = 0.
Proof. unfold Vector3.dot, Vector3.crossVectors. simpl. ring. Qed.

Lemma cross_dot_r (a b : Vector3) :
  Vector3.dot b (Vector3.crossVectors a b) = 0.
Proof. unfold Vector3.dot, Vector3.crossVectors. simpl. ring. Qed.

(** Lagrange's identity. *)
Lemma cross_norm (a b : Vector3) :
  Vector3.dot (Vector3.crossVectors a b) (Vector3.crossVectors a b)
  = Vector3.dot a a * Vector3.dot b b - Vector3.dot a b * Vector3.dot a b.
Proof. unfold Vector3.dot, Vector3.crossVectors. simpl. ring. Qed.

(** The cross product of two orthogonal unit vectors completes them to
    three mutually orthogonal unit vectors. *)
Lemma cross_orthonormal (t n : Vector3) :
  unit t -> unit n -> Vector3.dot t n = 0 ->
  orthonormal t n (Vector3.crossVectors t n).
Proof.
  intros Ht Hn Htn. unfold orthonormal.
  split; [exact Ht|]. split; [exact Hn|].
  apply unit_dot in Ht. apply unit_dot in Hn.
  split; [|split; [exact Htn|split; [apply cross_dot_l | apply cross_dot_r]]].
  apply unit_dot. rewrite cross_norm, Ht, Hn, Htn. ring.
Qed.

(** The dot product of unit vectors lies in [-1, 1], where [Clamp] is the
    identity. *)
Lemma dot_unit_bounds (a b : Vector3) :
  Vector3.dot a a = 1 -> Vector3.dot b b = 1 -> -1 <= Vector3.dot a b <= 1.
Proof.
  intros Ha Hb.
  pose proof (dot_self_nonneg (Vector3.crossVectors a b)) as Hc.
  rewrite cross_norm, Ha, Hb in Hc. nra.
Qed.

Lemma Clamp_inside (v : R) : -1 <= v <= 1 -> Clamp v (-1) 1 = v.
Proof.
  intros [H0 H1]. unfold Clamp.
  rewrite (Rmin_right 1 v H1). apply Rmax_right. exact H0.
Qed.

(** ** Normalizing *)

Lemma normalize_scaled (a : Vector3) : a <> vec3 0 0 0 ->
  Vector3.normalize a
  = vec3 (x a * (1 / sqrt (Vector3.dot a a))) (y a * (1 / sqrt (Vector3.dot a a)))
         (z a * (1 / sqrt (Vector3.dot a a))).
Proof.
  intro Ha. unfold Vector3.normalize.
  destruct (Rlt_dec 0 (Vector3.dot a a)) as [|Hn]; [reflexivity|].
  exfalso. apply Hn. now apply dot_self_pos.
Qed.

Lemma normalize_unit (a : Vector3) : a <> vec3 0 0 0 -> unit (Vector3.normalize a).
Proof.
  intro Ha. apply unit_dot. rewrite (normalize_scaled a Ha).
  pose proof (dot_self_pos a Ha) as Hp.
  pose proof (sqrt_lt_R0 _ Hp) as Hs.
  pose proof (sqrt_sqrt _ (dot_self_nonneg a)) as Hq.
  unfold Vector3.dot at 1. simpl.
  replace (x a * (1 / sqrt (Vector3.dot a a)) * (x a * (1 / sqrt (Vector3.dot a a)))
           + y a * (1 / sqrt (Vector3.dot a a)) * (y a * (1 / sqrt (Vector3.dot a a)))
           + z a * (1 / sqrt (Vector3.dot a a)) * (z a * (1 / sqrt (Vector3.dot a a))))
    with (Vector3.dot a a / (sqrt (Vector3.dot a a) * sqrt (Vector3.dot a a)))
    by (unfold Vector3.dot at 1; field; lra).
  rewrite Hq. field. lra.
Qed.

Lemma normalize_dot (a b : Vector3) : a <> vec3 0 0 0 ->
  Vector3.dot b (Vector3.normalize a)
  = Vector3.dot b a * (1 / sqrt (Vector3.dot a a)).
Proof.
  intro Ha. rewrite (normalize_scaled a Ha).
  set (k := 1 / sqrt (Vector3.dot a a)). unfold Vector3.dot. simpl. ring.
Qed.

(** ** Rotating *)

Lemma rotate_dot (a v w : Vector3) (angle : R) :
  Vector3.dot a a = 1 ->
  Vector3.dot (rotate a angle v) (rotate a angle w) = Vector3.dot v w.
Proof.
  intro Ha. pose proof (sin2_cos2 angle) as Hsc. unfold Rsqr in Hsc.
  destruct a as [ax ay az], v as [vx vy vz], w as [wx wy wz].
  unfold rotate, Vector3.transformMat4, Matrix4.makeRotationAxis, Vector3.dot in *.
  simpl in *. set (c := cos angle) in *. set (s := sin angle) in *.
  clearbody c s. nsatz.
Qed.

Lemma rotate_axis (a : Vector3) (angle : R) :
  Vector3.dot a a = 1 -> rotate a angle a = a.
Proof.
  intro Ha. destruct a as [ax ay az].
  unfold rotate, Vector3.transformMat4, Matrix4.makeRotationAxis, Vector3.dot in *.
  simpl in *. set (c := cos angle). set (s := sin angle). clearbody c s.
  apply vec3_eq; simpl; nsatz.
Qed.

(** Turning about a unit axis keeps a unit vector orthogonal to the axis a
    unit vector orthogonal to the axis. *)
Lemma rotate_about_tangent (t n : Vector3) (angle : R) :
  unit t -> unit n -> Vector3.dot t n = 0 ->
  unit (rotate t angle n) /\ Vector3.dot t (rotate t angle n) = 0.
Proof.
  intros Ht Hn Htn. apply unit_dot in Ht. split.
  - apply unit_dot. rewrite (rotate_dot t n n angle Ht). now apply unit_dot.
  - rewrite <- (rotate_axis t angle Ht) at 1.
    now rewrite (rotate_dot t t n angle Ht).
Qed.

(** ** The first frame *)

Lemma EPSILON_pos : 0 < EPSILON.
Proof. unfold EPSILON. apply Rinv_0_lt_compat, pow_lt. lra. Qed.

Lemma EPSILON_lt_1 : EPSILON < 1.
Proof.
  unfold EPSILON. rewrite <- Rinv_1. apply Rinv_lt_contravar.
  - rewrite Rmult_1_l. apply pow_lt. lra.
  - change (2 ^ 52) with (2 * 2 ^ 51).
    pose proof (pow_R1_Rle 2 51 ltac:(lra)). lra.
Qed.

Lemma MAX_VALUE_ge_1 : 1 <= MAX_VALUE.
Proof.
  unfold MAX_VALUE. pose proof EPSILON_lt_1 as He. unfold EPSILON in He.
  pose proof (pow_R1_Rle 2 1023 ltac:(lra)) as Hp.
  set (e := / 2 ^ 52) in *. set (p := 2 ^ 1023) in *. nra.
Qed.

Lemma unit_component_bounds (t : Vector3) : Vector3.dot t t = 1 ->
  Rabs (x t) <= 1 /\ Rabs (y t) <= 1 /\ Rabs (z t) <= 1.
Proof.
  unfold Vector3.dot. intro Ht.
  repeat split; apply Rabs_le; nra.
Qed.

(** The axis picked is never along the tangent. *)
Lemma leastAxis_cross (t : Vector3) : Vector3.dot t t = 1 ->
  0 < Vector3.dot (Vector3.crossVectors t (leastAxis t))
                  (Vector3.crossVectors t (leastAxis t)).
Proof.
  intro Ht. pose proof (unit_component_bounds t Ht) as [Hx [Hy Hz]].
  pose proof MAX_VALUE_ge_1 as HM.
  unfold leastAxis.
  destruct (Rle_dec (Rabs (x t)) MAX_VALUE) as [_|Hn]; [|exfalso; lra].
  unfold Vector3.dot in Ht.
  destruct (Rle_dec (Rabs (y t)) (Rabs (x t))) as [Hyx|Hyx];
    [apply Rsqr_le_abs_1 in Hyx | apply Rnot_le_lt, Rsqr_lt_abs_1 in Hyx];
    unfold Rsqr in Hyx.
  - destruct (Rle_dec (Rabs (z t)) (Rabs (y t))) as [Hzy|Hzy];
      [apply Rsqr_le_abs_1 in Hzy | apply Rnot_le_lt, Rsqr_lt_abs_1 in Hzy];
      unfold Rsqr in Hzy; unfold Vector3.dot, Vector3.crossVectors; simpl; nra.
  - destruct (Rle_dec (Rabs (z t)) (Rabs (x t))) as [Hzx|Hzx];
      [apply Rsqr_le_abs_1 in Hzx | apply Rnot_le_lt, Rsqr_lt_abs_1 in Hzx];
      unfold Rsqr in Hzx; unfold Vector3.dot, Vector3.crossVectors; simpl; nra.
Qed.

Lemma dot_pos_nonzero (a : Vector3) : 0 < Vector3.dot a a -> a <> vec3 0 0 0.
Proof. intros Hp E. rewrite E in Hp. unfold Vector3.dot in Hp. simpl in Hp. lra. Qed.

Lemma firstNormal_frame (t : Vector3) : unit t ->
  unit (firstNormal t) /\ Vector3.dot t (firstNormal t) = 0.
Proof.
  intro Ht. pose proof Ht as Ht1. apply unit_dot in Ht1.
  pose proof (dot_pos_nonzero _ (leastAxis_cross t Ht1)) as Hc.
  unfold firstNormal.
  set (vec := Vector3.normalize (Vector3.crossVectors t (leastAxis t))).
  assert (Hv : unit vec) by now apply normalize_unit.
  assert (Htv : Vector3.dot t vec = 0).
  { unfold vec. rewrite (normalize_dot _ t Hc), cross_dot_l. ring. }
  destruct (cross_orthonormal t vec Ht Hv Htv) as [_ [_ [Hu [_ [Hd _]]]]].
  split; assumption.
Qed.

(** ** One step of parallel transport *)

(** The rotation of a transport step takes the tangent before to the
    tangent after. *)
Lemma rotate_tangent (t t' : Vector3) :
  Vector3.dot t t = 1 -> Vector3.dot t' t' = 1 ->
  Vector3.crossVectors t t' <> vec3 0 0 0 ->
  rotate (Vector3.normalize (Vector3.crossVectors t t'))
         (acos (Clamp (Vector3.dot t t') (-1) 1)) t = t'.
Proof.
  intros Ht Ht' Hc.
  pose proof (dot_unit_bounds t t' Ht Ht') as Hd.
  rewrite (Clamp_inside _ Hd).
  rewrite (normalize_scaled _ Hc).
  pose proof (dot_self_pos _ Hc) as Hp.
  pose proof (sqrt_lt_R0 _ Hp) as HL.
  pose proof (sqrt_sqrt _ (dot_self_nonneg (Vector3.crossVectors t t'))) as HLL.
  unfold rotate, Matrix4.makeRotationAxis.
  rewrite (cos_acos _ Hd), (sin_acos _ Hd).
  replace (1 - (Vector3.dot t t')²)
    with (Vector3.dot (Vector3.crossVectors t t') (Vector3.crossVectors t t'))
    by (rewrite cross_norm, Ht, Ht'; unfold Rsqr; ring).
  set (L := sqrt (Vector3.dot (Vector3.crossVectors t t')
                              (Vector3.crossVectors t t'))) in *.
  assert (Hk : (1 / L) * L = 1) by (field; lra).
  set (k := 1 / L) in *. clearbody k.
  rewrite cross_norm, Ht, Ht' in HLL. clearbody L.
  destruct t as [a b c], t' as [a' b' c'].
  unfold Vector3.transformMat4, Vector3.dot, Vector3.crossVectors in *.
  simpl in *. apply vec3_eq; simpl; nsatz.
Qed.

(** A tangent along the line of the tangent before is orthogonal to
    whatever that one is orthogonal to. *)
Lemma collinear_orthogonal (t t' n : Vector3) :
  Vector3.dot t t = 1 -> Vector3.crossVectors t t' = vec3 0 0 0 ->
  Vector3.dot t n = 0 -> Vector3.dot t' n = 0.
Proof.
  destruct t as [a b c], t' as [a' b' c'], n as [p q r].
  unfold Vector3.dot, Vector3.crossVectors. simpl. intros Ht Hc Hn.
  injection Hc as H1 H2 H3. nsatz.
Qed.

Lemma transportNormal_frame (t n t' : Vector3) :
  unit t -> unit n -> Vector3.dot t n = 0 -> unit t' ->
  (Vector3.crossVectors t t' = vec3 0 0 0 \/
   EPSILON < Vector3.length (Vector3.crossVectors t t')) ->
  unit (transportNormal t n t') /\ Vector3.dot t' (transportNormal t n t') = 0.
Proof.
  intros Ht Hn Htn Ht' Hs. unfold transportNormal.
  apply unit_dot in Ht. apply unit_dot in Ht'.
  destruct (Rlt_dec EPSILON (Vector3.length (Vector3.crossVectors t t')))
    as [Hgt|Hle].
  - assert (Hc : Vector3.crossVectors t t' <> vec3 0 0 0).
    { intro E. rewrite E in Hgt. unfold Vector3.length, Vector3.dot in Hgt.
      simpl in Hgt. replace (0 * 0 + 0 * 0 + 0 * 0) with 0 in Hgt by ring.
      rewrite sqrt_0 in Hgt. pose proof EPSILON_pos. lra. }
    fold (rotate (Vector3.normalize (Vector3.crossVectors t t'))
                 (acos (Clamp (Vector3.dot t t') (-1) 1)) n).
    assert (Ha : Vector3.dot (Vector3.normalize (Vector3.crossVectors t t'))
                             (Vector3.normalize (Vector3.crossVectors t t')) = 1)
      by (apply unit_dot, normalize_unit, Hc).
    split.
    + apply unit_dot. rewrite (rotate_dot _ n n _ Ha). now apply unit_dot.
    + rewrite <- (rotate_tangent t t' Ht Ht' Hc) at 1.
      now rewrite (rotate_dot _ t n _ Ha).
  - destruct Hs as [Hc|Hgt]; [|contradiction].
    split; [exact Hn|]. now apply (collinear_orthogonal t t' n).
Qed.

(** ** The loops *)

Lemma sampleTangents_length (g : option R -> Vector3) (segments : nat) :
  Datatypes.length (sampleTangents g segments) = S segments.
Proof. unfold sampleTangents. now rewrite length_map, length_seq. Qed.

Lemma sampleTangents_nth (g : option R -> Vector3) (segments i : nat) (t : Vector3) :
  nth_error (sampleTangents g segments) i = Some t ->
  (i <= segments)%nat /\
  t = Vector3.normalize (g (sampleParameter i segments)).
Proof.
  unfold sampleTangents. rewrite nth_error_map, nth_error_seq.
  destruct (Nat.ltb_spec i (S segments)); simpl; [|discriminate].
  intro E. injection E as <-. split; [lia | reflexivity].
Qed.

Lemma sampleTangents_unit (g : option R -> Vector3) (segments i : nat) (t : Vector3) :
  regular g segments ->
  nth_error (sampleTangents g segments) i = Some t -> unit t.
Proof.
  intros Hr E. apply sampleTangents_nth in E. destruct E as [Hi ->].
  apply normalize_unit, Hr, Hi.
Qed.

Lemma transport_length (ts : list Vector3) :
  forall tp np, Datatypes.length (transport tp np ts) = Datatypes.length ts.
Proof.
  induction ts as [|t ts IH]; intros tp np; simpl; [reflexivity|].
  now rewrite IH.
Qed.

(** The invariant of the second loop: every normal is a unit vector
    orthogonal to its tangent. *)
Lemma transport_frames (ts : list Vector3) :
  forall tp np : Vector3,
    unit tp -> unit np -> Vector3.dot tp np = 0 ->
    (forall k t, nth_error ts k = Some t -> unit t) ->
    (forall i a b, nth_error (tp :: ts) i = Some a ->
                   nth_error (tp :: ts) (S i) = Some b ->
                   Vector3.crossVectors a b = vec3 0 0 0 \/
                   EPSILON < Vector3.length (Vector3.crossVectors a b)) ->
    forall k t n, nth_error ts k = Some t ->
                  nth_error (transport tp np ts) k = Some n ->
                  unit n /\ Vector3.dot t n = 0.
Proof.
  induction ts as [|t1 ts IH]; intros tp np Htp Hnp Hd Hu Hs k t n Et En.
  - destruct k; discriminate.
  - assert (Ht1 : unit t1) by (apply (Hu 0%nat); reflexivity).
    destruct (transportNormal_frame tp np t1 Htp Hnp Hd Ht1
                (Hs 0%nat tp t1 eq_refl eq_refl)) as [Hn1 Hd1].
    destruct k as [|k].
    + simpl in Et, En. injection Et as <-. injection En as <-. now split.
    + simpl in Et, En.
      apply (IH t1 (transportNormal tp np t1) Ht1 Hn1 Hd1) with (k := k);
        [| | exact Et | exact En].
      * intros j u Ej. apply (Hu (S j)). exact Ej.
      * intros i a b Ea Eb. apply (Hs (S i)); assumption.
Qed.

Lemma twist_length (ts : list Vector3) :
  forall ns theta i, Datatypes.length ns = Datatypes.length ts ->
    Datatypes.length (twist theta i ts ns) = Datatypes.length ts.
Proof.
  induction ts as [|t ts IH]; intros [|n ns] theta i E; simpl in *;
    try reflexivity; try discriminate.
  rewrite IH; [reflexivity | lia].
Qed.

Lemma twist_nth (ts : list Vector3) :
  forall ns theta i k t n,
    nth_error ts k = Some t -> nth_error ns k = Some n ->
    nth_error (twist theta i ts ns) k
    = Some (rotate t (theta * INR (i + k)) n).
Proof.
  induction ts as [|t1 ts IH]; intros ns theta i k t n Et En.
  - destruct k; discriminate.
  - destruct ns as [|n1 ns]; [destruct k; discriminate|].
    destruct k as [|k]; simpl in *.
    + injection Et as <-. injection En as <-. now rewrite Nat.add_0_r.
    + rewrite (IH ns theta (S i) k t n Et En).
      now replace (S i + k)%nat with (i + S k)%nat by lia.
Qed.

Lemma twist_nth_inv (ts : list Vector3) :
  forall ns theta i k n',
    nth_error (twist theta i ts ns) k = Some n' ->
    exists t n, nth_error ts k = Some t /\ nth_error ns k = Some n.
Proof.
  induction ts as [|t1 ts IH]; intros ns theta i k n' E.
  - destruct k; discriminate.
  - destruct ns as [|n1 ns]; [destruct k; discriminate|].
    destruct k as [|k]; simpl in *.
    + eauto.
    + apply (IH ns theta (S i) k n' E).
Qed.

Lemma binormals_nth (ts ns : list Vector3) :
  forall i t n b,
    nth_error ts i = Some t -> nth_error ns i = Some n ->
    nth_error (map (fun tn => Vector3.crossVectors (fst tn) (snd tn))
                   (combine ts ns)) i = Some b ->
    b = Vector3.crossVectors t n.
Proof.
  revert ns. induction ts as [|t1 ts IH]; intros ns i t n b Et En Eb.
  - destruct i; discriminate.
  - destruct ns as [|n1 ns]; [destruct i; discriminate|].
    destruct i as [|i]; simpl in *.
    + injection Et as <-. injection En as <-. now injection Eb as <-.
    + apply (IH ns i t n b Et En Eb).
Qed.

(** ** The frames *)

(** The normals of [computeFrenetFrames]: unit vectors, each orthogonal to
    its tangent.  Both loops keep this; the closing twist turns each normal
    about its own tangent. *)
Lemma normals_frames (g : option R -> Vector3) (segments : nat) (closed : bool) :
  regular g segments -> steady g segments ->
  forall i t n,
    nth_error (tangents (computeFrenetFrames g segments closed)) i = Some t ->
    nth_error (normals (computeFrenetFrames g segments closed)) i = Some n ->
    unit t /\ unit n /\ Vector3.dot t n = 0.
Proof.
  intros Hr Hs i t n Et En.
  assert (Ht : unit t) by apply (sampleTangents_unit g segments i t Hr Et).
  split; [exact Ht|].
  unfold computeFrenetFrames in Et, En. cbn [tangents normals] in Et, En.
  remember (sampleTangents g segments) as l eqn:El.
  destruct l as [|t0 ts].
  { destruct i; discriminate. }
  cbn [hd tl] in En.
  assert (Ht0 : unit t0).
  { apply (sampleTangents_unit g segments 0 t0 Hr). now rewrite <- El. }
  destruct (firstNormal_frame t0 Ht0) as [Hn0 Hd0].
  assert (Hu : forall k u, nth_error ts k = Some u -> unit u).
  { intros k u Ek. apply (sampleTangents_unit g segments (S k) u Hr).
    now rewrite <- El. }
  assert (Hc : forall j a b, nth_error (t0 :: ts) j = Some a ->
                             nth_error (t0 :: ts) (S j) = Some b ->
                             Vector3.crossVectors a b = vec3 0 0 0 \/
                             EPSILON < Vector3.length (Vector3.crossVectors a b)).
  { intros j a b Ea Eb. apply (Hs j a b); now rewrite <- El. }
  pose proof (transport_frames ts t0 (firstNormal t0) Ht0 Hn0 Hd0 Hu Hc) as Hf.
  destruct i as [|i].
  - simpl in Et, En. injection Et as <-. injection En as <-. now split.
  - simpl in Et. destruct closed.
    + cbn [nth_error] in En.
      destruct (twist_nth_inv _ _ _ _ _ _ En) as [t' [n' [Et' En']]].
      rewrite Et in Et'. injection Et' as <-.
      rewrite (twist_nth _ _ _ _ _ _ _ Et En') in En. injection En as <-.
      destruct (Hf i t n' Et En') as [Hn' Hd'].
      apply rotate_about_tangent; assumption.
    + simpl in En. apply (Hf i t n Et En).
Qed.

Lemma frames_lengths (g : option R -> Vector3) (segments : nat) (closed : bool) :
  Datatypes.length (tangents (computeFrenetFrames g segments closed)) = S segments /\
  Datatypes.length (normals (computeFrenetFrames g segments closed)) = S segments /\
  Datatypes.length (binormals (computeFrenetFrames g segments closed)) = S segments.
Proof.
  unfold computeFrenetFrames. cbn [tangents normals binormals].
  pose proof (sampleTangents_length g segments) as HL.
  remember (sampleTangents g segments) as l eqn:El.
  destruct l as [|t0 ts]; [discriminate|]. simpl in HL. cbn [hd tl].
  assert (Hn : Datatypes.length
                 (firstNormal t0
                  :: (if closed
                      then twist (twistAngle segments t0 (firstNormal t0)
                                    (last (transport t0 (firstNormal t0) ts)
                                          (firstNormal t0)))
                                 1 ts (transport t0 (firstNormal t0) ts)
                      else transport t0 (firstNormal t0) ts)) = S segments).
  { simpl. destruct closed.
    - rewrite twist_length; [lia | apply transport_length].
    - rewrite transport_length. lia. }
  split; [simpl; lia|]. split; [exact Hn|].
  rewrite length_map, length_combine, Hn. simpl. lia.
Qed.

(** ** The frames without the condition on consecutive tangents *)





(** ** The closing twist *)







Lemma last_nth_error {A : Type} (l : list A) (d a : A) :
  nth_error l (pred (Datatypes.length l)) = Some a -> last l d = a.
Proof.
  induction l as [|h l IH]; [discriminate|].
  destruct l as [|h' l].
  - simpl. intro E. now injection E.
  - intro E. apply IH. exact E.
Qed.



(** ** The concrete tangent fields *)

Lemma normalize_of_unit (a : Vector3) :
  Vector3.dot a a = 1 -> Vector3.normalize a = a.
Proof.
  intro Ha.
  assert (Hn : a <> vec3 0 0 0) by (apply dot_pos_nonzero; lra).
  rewrite (normalize_scaled a Hn), Ha, sqrt_1.
  destruct a as [ax ay az]. apply vec3_eq; simpl; field.
Qed.

Lemma firstNormal_x : firstNormal (vec3 1 0 0) = vec3 0 0 (-1).
Proof.
  pose proof MAX_VALUE_ge_1 as HM.
  unfold firstNormal, leastAxis. cbn [x y z].
  rewrite Rabs_R1, Rabs_R0.
  destruct (Rle_dec 1 MAX_VALUE) as [_|Hn]; [|exfalso; lra].
  destruct (Rle_dec 0 1) as [_|Hn]; [|exfalso; lra].
  destruct (Rle_dec 0 0) as [_|Hn]; [|exfalso; lra].
  rewrite normalize_of_unit.
  - unfold Vector3.crossVectors. simpl. apply vec3_eq; simpl; ring.
  - unfold Vector3.dot, Vector3.crossVectors. simpl. ring.
Qed.

Lemma sampleTangents_corner :
  sampleTangents cornerTangent 1 = [vec3 1 0 0; vec3 0 0 (-1)].
Proof.
  unfold sampleTangents, cornerTangent, below. simpl.
  destruct (Rlt_dec (0 / 1) (1 / 2)) as [_|Hn]; [|exfalso; lra].
  destruct (Rlt_dec (1 / 1) (1 / 2)) as [Hn|_]; [exfalso; lra|].
  rewrite !normalize_of_unit; [reflexivity | |];
    unfold Vector3.dot; simpl; ring.
Qed.

Lemma corner_regular : regular cornerTangent 1.
Proof.
  intros i _. unfold cornerTangent.
  destruct (below (sampleParameter i 1) (1 / 2)); intro E; injection E; lra.
Qed.

Lemma corner_steady : steady cornerTangent 1.
Proof.
  intros i a b Ea Eb. rewrite sampleTangents_corner in Ea, Eb.
  destruct i as [|[|i]]; simpl in Ea, Eb; try discriminate.
  injection Ea as <-. injection Eb as <-. right.
  unfold Vector3.length, Vector3.dot, Vector3.crossVectors. simpl.
  match goal with |- _ < sqrt ?e => replace e with 1 by ring end.
  rewrite sqrt_1. apply EPSILON_lt_1.
Qed.



Lemma sampleTangents_turning :
  sampleTangents turningTangent 3
  = [vec3 1 0 0; vec3 0 1 0; vec3 0 0 1; vec3 1 0 0].
Proof.
  unfold sampleTangents, turningTangent, below. simpl.
  repeat match goal with
         | |- context [Rlt_dec ?a ?b] =>
             destruct (Rlt_dec a b); try (exfalso; lra)
         end.
  rewrite !normalize_of_unit; [reflexivity |..]; unfold Vector3.dot; simpl; ring.
Qed.




(** A quarter turn: the transport step between two orthogonal unit
    tangents. *)
Lemma transportNormal_quarter (t n t' : Vector3) :
  Vector3.dot t t = 1 -> Vector3.dot t' t' = 1 -> Vector3.dot t t' = 0 ->
  transportNormal t n t'
  = vec3 (Vector3.dot (Vector3.crossVectors t t') n * x (Vector3.crossVectors t t')
          + x (Vector3.crossVectors (Vector3.crossVectors t t') n))
         (Vector3.dot (Vector3.crossVectors t t') n * y (Vector3.crossVectors t t')
          + y (Vector3.crossVectors (Vector3.crossVectors t t') n))
         (Vector3.dot (Vector3.crossVectors t t') n * z (Vector3.crossVectors t t')
          + z (Vector3.crossVectors (Vector3.crossVectors t t') n)).
Proof.
  intros Ht Ht' Hd. unfold transportNormal.
  assert (Hc : Vector3.dot (Vector3.crossVectors t t') (Vector3.crossVectors t t') = 1)
    by (rewrite cross_norm, Ht, Ht', Hd; ring).
  assert (HL : Vector3.length (Vector3.crossVectors t t') = 1)
    by (unfold Vector3.length; rewrite Hc; apply sqrt_1).
  destruct (Rlt_dec EPSILON (Vector3.length (Vector3.crossVectors t t')))
    as [_|Hn]; [|exfalso; apply Hn; rewrite HL; apply EPSILON_lt_1].
  rewrite (normalize_of_unit _ Hc), Hd.
  rewrite (Clamp_inside 0) by lra. rewrite acos_0.
  unfold Matrix4.makeRotationAxis. rewrite cos_PI2, sin_PI2.
  unfold Vector3.transformMat4, Vector3.dot, Vector3.crossVectors.
  apply vec3_eq; simpl; ring.
Qed.

(** Without the closing twist the frame of [turningTangent] comes back
    turned by a quarter: the last normal is [(0, 1, 0)], the first one
    [(0, 0, -1)].  This is the discrepancy the twist of the closed branch
    takes out. *)
Lemma turning_open_discrepancy :
  normals (computeFrenetFrames turningTangent 3 false)
  = [vec3 0 0 (-1); vec3 0 0 (-1); vec3 0 1 0; vec3 0 1 0].
Proof.
  assert (Q : forall t n t' r : Vector3,
             Vector3.dot t t = 1 -> Vector3.dot t' t' = 1 ->
             Vector3.dot t t' = 0 ->
             x r = Vector3.dot (Vector3.crossVectors t t') n
                   * x (Vector3.crossVectors t t')
                   + x (Vector3.crossVectors (Vector3.crossVectors t t') n) ->
             y r = Vector3.dot (Vector3.crossVectors t t') n
                   * y (Vector3.crossVectors t t')
                   + y (Vector3.crossVectors (Vector3.crossVectors t t') n) ->
             z r = Vector3.dot (Vector3.crossVectors t t') n
                   * z (Vector3.crossVectors t t')
                   + z (Vector3.crossVectors (Vector3.crossVectors t t') n) ->
             transportNormal t n t' = r).
  { intros t n t' r Ht Ht' Hd Hx Hy Hz.
    rewrite (transportNormal_quarter t n t' Ht Ht' Hd).
    apply vec3_eq; [rewrite Hx | rewrite Hy | rewrite Hz]; reflexivity. }
  assert (S1 : transportNormal (vec3 1 0 0) (vec3 0 0 (-1)) (vec3 0 1 0)
               = vec3 0 0 (-1))
    by (apply Q; unfold Vector3.dot, Vector3.crossVectors; simpl; ring).
  assert (S2 : transportNormal (vec3 0 1 0) (vec3 0 0 (-1)) (vec3 0 0 1)
               = vec3 0 1 0)
    by (apply Q; unfold Vector3.dot, Vector3.crossVectors; simpl; ring).
  assert (S3 : transportNormal (vec3 0 0 1) (vec3 0 1 0) (vec3 1 0 0)
               = vec3 0 1 0)
    by (apply Q; unfold Vector3.dot, Vector3.crossVectors; simpl; ring).
  unfold computeFrenetFrames. cbn [normals].
  rewrite sampleTangents_turning. cbn [hd tl transport].
  rewrite firstNormal_x, S1, S2, S3. reflexivity.
Qed.

Local Close Scope R_scope.

(** * More about the arc-length methods *)

(** ** Where the remapping is defined *)

Lemma at_index_None_after (arr : list Q) (i : Z) :
  (Z.of_nat (length arr) <= i)%Z -> at_index arr i = None.
Proof.
  intro Hi. destruct (at_index arr i) eqn:E; [|reflexivity].
  apply at_index_Some in E. lia.
Qed.

Lemma Qdiv_unit (a b : Q) : 0 <= a <= b -> 0 < b -> 0 <= a / b <= 1.
Proof.
  intros [H0 H1] Hb. split.
  - apply Qle_shift_div_l; [exact Hb | lra].
  - apply Qle_shift_div_r; [exact Hb | lra].
Qed.

Lemma inject_Z_succ (i : Z) : inject_Z (i + 1) == inject_Z i + 1.
Proof. rewrite inject_Z_plus. reflexivity. Qed.

Section Range.

Context {Point : Type} `{Metric Point}.
Variable evaluate : Q -> Point.
Variable d : nat.
Hypothesis d_pos : (0 < d)%nat.

(** A target between 0 and the total length gives a parameter in [0,1]. *)
Lemma remap_target_range (last target : Q) :
  at_index (table evaluate d) (Z.of_nat (length (table evaluate d)) - 1)
  = Some last ->
  0 <= target <= last ->
  exists t, interpolate (table evaluate d) target
              (searchIndex (table evaluate d) target) = Some t /\
            0 <= t <= 1.
Proof.
  intros Elast Ht.
  pose proof (table_N evaluate d d_pos) as HN. cbv zeta in HN.
  assert (Hden : 0 < inject_Z (Z.of_nat (length (table evaluate d)) - 1)).
  { change 0 with (inject_Z 0). rewrite <- Zlt_Qlt. lia. }
  destruct (remap_cases evaluate d d_pos last target Elast Ht)
    as [a [Ea [_ [[Heq Hi] | [Ha [[_ Hmax] [b [Eb Hi]]]]]]]].
  - eexists. split; [exact Hi|].
    apply at_index_Some in Ea. destruct Ea as [Hr _].
    apply Qdiv_unit; [|exact Hden].
    split; [change 0 with (inject_Z 0) |]; rewrite <- Zle_Qle; lia.
  - eexists. split; [exact Hi|].
    assert (Hb : target < b).
    { apply Qnot_le_lt. intro Hle.
      assert (searchIndex (table evaluate d) target + 1
              <= searchIndex (table evaluate d) target)%Z
        by (apply (Hmax _ b Eb Hle)).
      lia. }
    pose proof (Qdiv_unit (target - a) (b - a) ltac:(lra) ltac:(lra)) as Hf.
    pose proof Ea as Ea'. apply at_index_Some in Ea'. destruct Ea' as [Hr _].
    apply at_index_Some in Eb. destruct Eb as [Hr' _].
    assert (H0i : 0 <= inject_Z (searchIndex (table evaluate d) target))
      by (change 0 with (inject_Z 0); rewrite <- Zle_Qle; lia).
    assert (Hi1 : inject_Z (searchIndex (table evaluate d) target) + 1
                  <= inject_Z (Z.of_nat (length (table evaluate d)) - 1)).
    { rewrite <- inject_Z_succ, <- Zle_Qle. lia. }
    apply Qdiv_unit; [lra | exact Hden].
Qed.

(** A target below 0 or above the total length gives no number: the search
    ends before the first or on the last entry, where [arcLengths[i]] or
    [arcLengths[i + 1]] is [undefined]. *)
Lemma remap_target_outside (last target : Q) :
  at_index (table evaluate d) (Z.of_nat (length (table evaluate d)) - 1)
  = Some last ->
  target < 0 \/ last < target ->
  interpolate (table evaluate d) target (searchIndex (table evaluate d) target)
  = None.
Proof.
  intros Elast Hout.
  pose proof (table_N evaluate d d_pos) as HN. cbv zeta in HN.
  pose proof (table_nonDecreasing evaluate d) as Hs.
  assert (Hl : 0 <= last).
  { destruct (table_last evaluate d d_pos) as [l [El Hl]].
    cbv zeta in El. rewrite Elast in El. injection El as <-. exact Hl. }
  assert (Hnone : forall j a, at_index (table evaluate d) j = Some a ->
                              ~ a == target).
  { intros j a Ea Heq.
    pose proof Ea as Er. apply at_index_Some in Er. destruct Er as [Hr _].
    assert (0 <= a)
      by (apply (Hs 0%Z j 0 a); [lia | reflexivity | exact Ea]).
    assert (a <= last)
      by (apply (Hs j (Z.of_nat (length (table evaluate d)) - 1)%Z a last);
          [lia | exact Ea | exact Elast]).
    lra. }
  destruct (searchIndex_spec (table evaluate d) target Hs)
    as [Hr [[a [Ea Heq]] | [Hlo Hhi]]].
  { exfalso. exact (Hnone _ a Ea Heq). }
  set (i := searchIndex (table evaluate d) target) in *.
  unfold interpolate.
  destruct (at_index (table evaluate d) i) as [a|] eqn:Ea; [|reflexivity].
  assert (Hf : Qeq_bool a target = false).
  { destruct (Qeq_bool a target) eqn:E; [|reflexivity].
    apply Qeq_bool_eq in E. exfalso. exact (Hnone i a Ea E). }
  rewrite Hf.
  assert (Ha : a < target) by (apply (Hlo i a); [lia | exact Ea]).
  assert (Hi : i = (Z.of_nat (length (table evaluate d)) - 1)%Z).
  { destruct Hout as [Hneg|Hbig].
    - exfalso.
      pose proof Ea as Er. apply at_index_Some in Er. destruct Er as [Hr0 _].
      assert (0 <= a)
        by (apply (Hs 0%Z i 0 a); [lia | reflexivity | exact Ea]).
      lra.
    - destruct (Z.lt_ge_cases i (Z.of_nat (length (table evaluate d)) - 1))
        as [Hlt|Hge]; [|lia].
      assert (target < last)
        by (apply (Hhi (Z.of_nat (length (table evaluate d)) - 1)%Z last);
            [lia | exact Elast]).
      lra. }
  rewrite (at_index_None_after (table evaluate d) (i + 1)) by lia.
  reflexivity.
Qed.

End Range.

(** ** Targets that are the same number *)

Lemma search_target_ext (arr : list Q) (target target' : Q) (fuel : nat) :
  target == target' ->
  forall low high,
    search fuel arr target low high = search fuel arr target' low high.
Proof.
  intro E. induction fuel as [|fuel IH]; intros low high; [reflexivity|].
  simpl. destruct (low <=? high)%Z; [|reflexivity].
  destruct (at_index arr (low + (high - low) / 2)) as [a|]; [|reflexivity].
  assert (Ec : Qcompare (a - target) 0 = Qcompare (a - target') 0)
    by (now rewrite E).
  rewrite Ec. destruct (Qcompare (a - target') 0); [reflexivity | |]; apply IH.
Qed.

Lemma searchIndex_target_ext (arr : list Q) (target target' : Q) :
  target == target' -> searchIndex arr target = searchIndex arr target'.
Proof. intro E. unfold searchIndex. now apply search_target_ext. Qed.

Lemma Qeq_bool_target_ext (a target target' : Q) :
  target == target' -> Qeq_bool a target = Qeq_bool a target'.
Proof.
  intro E. destruct (Qeq_bool a target') eqn:E'.
  - apply Qeq_bool_eq in E'. apply Qeq_eq_bool. now rewrite E.
  - destruct (Qeq_bool a target) eqn:E''; [|reflexivity].
    apply Qeq_bool_eq in E''. rewrite E in E''.
    apply Qeq_eq_bool in E''. congruence.
Qed.

Lemma jsdiv_ext (a a' b : Q) :
  a == a' -> sameNumber (jsdiv a b) (jsdiv a' b).
Proof.
  intro E. unfold jsdiv. destruct (Qeq_bool b 0); simpl; [exact I|].
  now rewrite E.
Qed.

Lemma interpolate_target_ext (arr : list Q) (target target' : Q) (i : Z) :
  target == target' ->
  sameNumber (interpolate arr target i) (interpolate arr target' i).
Proof.
  intro E. unfold interpolate.
  destruct (at_index arr i) as [a|].
  - rewrite (Qeq_bool_target_ext a target target' E).
    destruct (Qeq_bool a target').
    + apply jsdiv_ext. reflexivity.
    + destruct (at_index arr (i + 1)) as [b|]; [|exact I].
      pose proof (jsdiv_ext (target - a) (target' - a) (b - a)
                            ltac:(now rewrite E)) as Hf.
      destruct (jsdiv (target - a) (b - a)) as [f|],
               (jsdiv (target' - a) (b - a)) as [f'|];
        simpl in Hf; try contradiction; [|exact I].
      apply jsdiv_ext. now rewrite Hf.
  - exact I.
Qed.

Lemma sameNumber_refl (a : option Q) : sameNumber a a.
Proof. destruct a; simpl; [reflexivity | exact I]. Qed.

(** ** The remapping keeps the order *)

Lemma Qdiv_le_compat (a b c : Q) : a <= b -> 0 < c -> a / c <= b / c.
Proof.
  intros Hab Hc. unfold Qdiv. apply Qmult_le_compat_r; [exact Hab|].
  apply Qlt_le_weak, Qinv_lt_0_compat, Hc.
Qed.

Section Order.

Context {Point : Type} `{Metric Point}.
Variable evaluate : Q -> Point.
Variable d : nat.
Hypothesis d_pos : (0 < d)%nat.

Lemma remap_target_monotone (last target target' : Q) :
  at_index (table evaluate d) (Z.of_nat (length (table evaluate d)) - 1)
  = Some last ->
  0 <= target -> target <= target' -> target' <= last ->
  exists t t',
    interpolate (table evaluate d) target
      (searchIndex (table evaluate d) target) = Some t /\
    interpolate (table evaluate d) target'
      (searchIndex (table evaluate d) target') = Some t' /\
    t <= t'.
Proof.
  intros Elast Hpos Hle Htop.
  destruct (Qlt_le_dec target target') as [Hlt|Hge].
  2:{ (* the same number *)
    assert (E : target == target') by lra.
    destruct (remap_target_range evaluate d d_pos last target' Elast
                ltac:(lra)) as [t' [Et' _]].
    pose proof (interpolate_target_ext (table evaluate d) target target'
                  (searchIndex (table evaluate d) target') E) as Hs.
    rewrite (searchIndex_target_ext _ target target' E).
    rewrite Et' in Hs.
    destruct (interpolate (table evaluate d) target
                (searchIndex (table evaluate d) target')) as [t|];
      simpl in Hs; [|contradiction].
    exists t, t'. repeat split; [exact Et' | lra]. }
  pose proof (table_N evaluate d d_pos) as HN. cbv zeta in HN.
  set (T := table evaluate d) in *.
  set (den := inject_Z (Z.of_nat (length T) - 1)).
  assert (Hden : 0 < den).
  { unfold den. change 0 with (inject_Z 0). rewrite <- Zlt_Qlt. lia. }
  destruct (remap_cases evaluate d d_pos last target Elast ltac:(lra))
    as [a [Ea [_ C1]]].
  destruct (remap_cases evaluate d d_pos last target' Elast ltac:(lra))
    as [a' [Ea' [Hbelow' C2]]].
  fold T in Ea, Ea', Hbelow', C1, C2. fold den in C1, C2.
  set (i := searchIndex T target) in *.
  set (i' := searchIndex T target') in *.
  assert (Ha : a <= target) by (destruct C1 as [[? _] | [? _]]; lra).
  assert (Hii : (i <= i')%Z) by (apply (Hbelow' i a Ea); lra).
  (* the numerators *)
  assert (N1 : exists n, interpolate T target i = Some (n / den) /\
                         inject_Z i <= n <= inject_Z i + 1 /\
                         (forall b, at_index T (i + 1) = Some b -> target < b ->
                                    n <= inject_Z i + (target - a) / (b - a))).
  { destruct C1 as [[Heq Hi] | [Hlt1 [[_ Hmax] [b [Eb Hi]]]]].
    - exists (inject_Z i). split; [exact Hi|]. split; [lra|].
      intros b Eb Hb.
      pose proof (Qdiv_unit (target - a) (b - a) ltac:(lra) ltac:(lra)). lra.
    - assert (Hb : target < b).
      { apply Qnot_le_lt. intro Hle'.
        assert (i + 1 <= i)%Z by (apply (Hmax _ b Eb Hle')). lia. }
      exists (inject_Z i + (target - a) / (b - a)). split; [exact Hi|].
      pose proof (Qdiv_unit (target - a) (b - a) ltac:(lra) ltac:(lra)).
      split; [lra|].
      intros b0 Eb0 _. rewrite Eb in Eb0. injection Eb0 as <-. lra. }
  destruct N1 as [n [En [Hn Hn']]].
  destruct C2 as [[Heq' Hi'] | [Hlt2 [[_ Hmax'] [b' [Eb' Hi']]]]].
  - (* the larger target is hit exactly *)
    exists (n / den), (inject_Z i' / den).
    split; [exact En|]. split; [exact Hi'|].
    apply Qdiv_le_compat; [|exact Hden].
    destruct (Z.eq_dec i i') as [Eii|Nii].
    + exfalso.
      assert (a = a') by (rewrite <- Eii in Ea'; congruence).
      subst a'. lra.
    + assert (inject_Z (i + 1) <= inject_Z i') by (rewrite <- Zle_Qle; lia).
      rewrite inject_Z_succ in *. lra.
  - assert (Hb' : target' < b').
    { apply Qnot_le_lt. intro Hle'.
      assert (i' + 1 <= i')%Z by (apply (Hmax' _ b' Eb' Hle')). lia. }
    exists (n / den), ((inject_Z i' + (target' - a') / (b' - a')) / den).
    split; [exact En|]. split; [exact Hi'|].
    apply Qdiv_le_compat; [|exact Hden].
    pose proof (Qdiv_unit (target' - a') (b' - a') ltac:(lra) ltac:(lra)) as Hf'.
    destruct (Z.eq_dec i i') as [Eii|Nii].
    + assert (Ea2 : at_index T i = Some a') by (rewrite Eii; exact Ea').
      assert (Eb2 : at_index T (i + 1) = Some b') by (rewrite Eii; exact Eb').
      assert (a = a') by congruence. subst a'.
      pose proof (Hn' b' Eb2 ltac:(lra)) as Hnb.
      assert ((target - a) / (b' - a) <= (target' - a) / (b' - a))
        by (apply Qdiv_le_compat; lra).
      rewrite <- Eii. lra.
    + assert (inject_Z (i + 1) <= inject_Z i') by (rewrite <- Zle_Qle; lia).
      rewrite inject_Z_succ in *. lra.
Qed.

End Order.

(** ** The remapping as a user sees it *)

Lemma getLength_run {Point : Type} `{Vector Point} (evaluate : Q -> Point)
  (c : Curve) :
  getLength evaluate c
  = (at_index (fst (getLengths evaluate None c))
              (Z.of_nat (length (fst (getLengths evaluate None c))) - 1),
     snd (getLengths evaluate None c)).
Proof. unfold getLength. rewrite run_bind. reflexivity. Qed.

Lemma remap_fraction (arr : list Q) (u last : Q) :
  at_index arr (Z.of_nat (length arr) - 1) = Some last ->
  remap arr u None = interpolate arr (u * last) (searchIndex arr (u * last)).
Proof. intro E. unfold remap, targetArcLength. now rewrite E. Qed.

Lemma remap_distance (arr : list Q) (u dist : Q) :
  ~ dist == 0 ->
  remap arr u (Some dist) = interpolate arr dist (searchIndex arr dist).
Proof.
  intro Hd. unfold remap, targetArcLength.
  destruct (Qeq_bool dist 0) eqn:E; [|reflexivity].
  apply Qeq_bool_eq in E. contradiction.
Qed.

(** X1.  On a curve whose cache is current, [getUtoTmapping(u)] for [u] in
    [0,1] is a number, and it lies in [0,1]; so does
    [getUtoTmapping(u, distance)] for a distance above 0 and at most the
    length of the curve. *)
Theorem getUtoTmapping_in_unit_interval {Point : Type} `{Metric Point}
  (evaluate : Q -> Point) (c : Curve) (len : Q) :
  cacheCurrent evaluate c ->
  fst (getLength evaluate c) = Some len ->
  (forall u, 0 <= u <= 1 ->
     exists t, fst (getUtoTmapping evaluate u None c) = Some t /\ 0 <= t <= 1) /\
  (forall u dist, 0 < dist <= len ->
     exists t, fst (getUtoTmapping evaluate u (Some dist) c) = Some t /\
               0 <= t <= 1).
Proof.
  intros Hc Hlen. rewrite getLength_run in Hlen. cbn [fst] in Hlen.
  rewrite (getLengths_table evaluate None c Hc) in Hlen.
  set (d := lengthsDivisions None c) in *.
  assert (Hd : (0 < d)%nat) by apply lengthsDivisions_pos.
  assert (Hl : 0 <= len).
  { destruct (table_last evaluate d Hd) as [l [El Hl]]. cbv zeta in El.
    rewrite Hlen in El. injection El as <-. exact Hl. }
  split.
  - intros u [Hu0 Hu1]. rewrite getUtoTmapping_run. cbn [fst].
    rewrite (getLengths_table evaluate None c Hc). fold d.
    rewrite (remap_fraction _ u len Hlen).
    apply (remap_target_range evaluate d Hd len); [exact Hlen | nra].
  - intros u dist [Hd0 Hd1]. rewrite getUtoTmapping_run. cbn [fst].
    rewrite (getLengths_table evaluate None c Hc). fold d.
    rewrite (remap_distance _ u dist) by lra.
    apply (remap_target_range evaluate d Hd len); [exact Hlen | lra].
Qed.

Lemma getUtoTmapping_in_unit_interval_witness :
  let c := newCurve (Some 10%nat) in
  exists t, fst (getUtoTmapping stairs (1 # 3) None c) = Some t /\ 0 <= t <= 1.
Proof.
  intro c.
  assert (Hlen : fst (getLength stairs c) = Some 10) by (vm_compute; reflexivity).
  destruct (getUtoTmapping_in_unit_interval stairs c 10
              (cacheCurrent_new stairs _) Hlen) as [Hu _].
  apply Hu. split; discriminate.
Defined.

(** X2.  On a curve of positive length whose cache is current,
    [getUtoTmapping(u)] for [u] below 0 or above 1 is [NaN], and so is
    [getUtoTmapping(u, distance)] for a distance below 0 or above the length
    of the curve: the remapping does not clamp. *)
Theorem getUtoTmapping_outside {Point : Type} `{Metric Point}
  (evaluate : Q -> Point) (c : Curve) (len : Q) :
  cacheCurrent evaluate c ->
  fst (getLength evaluate c) = Some len ->
  0 < len ->
  (forall u, u < 0 \/ 1 < u ->
     fst (getUtoTmapping evaluate u None c) = None) /\
  (forall u dist, dist < 0 \/ len < dist ->
     fst (getUtoTmapping evaluate u (Some dist) c) = None).
Proof.
  intros Hc Hlen Hpos. rewrite getLength_run in Hlen. cbn [fst] in Hlen.
  rewrite (getLengths_table evaluate None c Hc) in Hlen.
  set (d := lengthsDivisions None c) in *.
  assert (Hd : (0 < d)%nat) by apply lengthsDivisions_pos.
  split.
  - intros u Hout. rewrite getUtoTmapping_run. cbn [fst].
    rewrite (getLengths_table evaluate None c Hc). fold d.
    rewrite (remap_fraction _ u len Hlen).
    apply (remap_target_outside evaluate d Hd len); [exact Hlen|].
    destruct Hout; [left | right]; nra.
  - intros u dist Hout. rewrite getUtoTmapping_run. cbn [fst].
    rewrite (getLengths_table evaluate None c Hc). fold d.
    rewrite (remap_distance _ u dist) by (destruct Hout; lra).
    now apply (remap_target_outside evaluate d Hd len).
Qed.

Lemma getUtoTmapping_outside_witness :
  let c := newCurve (Some 10%nat) in
  fst (getUtoTmapping stairs (3 # 2) None c) = None.
Proof.
  intro c.
  assert (Hlen : fst (getLength stairs c) = Some 10) by (vm_compute; reflexivity).
  destruct (getUtoTmapping_outside stairs c 10 (cacheCurrent_new stairs _)
              Hlen eq_refl) as [Hu _].
  apply Hu. right. reflexivity.
Defined.

(** X3.  On a curve whose cache is current the remapping keeps the order:
    for [0 <= u1 <= u2 <= 1], [getUtoTmapping(u1) <= getUtoTmapping(u2)]. *)
Theorem getUtoTmapping_monotone {Point : Type} `{Metric Point}
  (evaluate : Q -> Point) (c : Curve) (u1 u2 : Q) :
  cacheCurrent evaluate c ->
  0 <= u1 -> u1 <= u2 -> u2 <= 1 ->
  exists t1 t2,
    fst (getUtoTmapping evaluate u1 None c) = Some t1 /\
    fst (getUtoTmapping evaluate u2 None c) = Some t2 /\
    t1 <= t2.
Proof.
  intros Hc H1 H12 H2. rewrite !getUtoTmapping_run. cbn [fst].
  rewrite (getLengths_table evaluate None c Hc).
  set (d := lengthsDivisions None c).
  assert (Hd : (0 < d)%nat) by apply lengthsDivisions_pos.
  destruct (table_last evaluate d Hd) as [last [Elast Hl]]. cbv zeta in Elast.
  rewrite !(remap_fraction _ _ last Elast).
  apply (remap_target_monotone evaluate d Hd last); [exact Elast | nra ..].
Qed.

Lemma getUtoTmapping_monotone_witness :
  let c := newCurve (Some 10%nat) in
  exists t1 t2,
    fst (getUtoTmapping stairs (1 # 3) None c) = Some t1 /\
    fst (getUtoTmapping stairs (2 # 3) None c) = Some t2 /\
    t1 <= t2.
Proof.
  intro c.
  apply (getUtoTmapping_monotone stairs c (1 # 3) (2 # 3)
           (cacheCurrent_new stairs _)); discriminate.
Defined.

(** X4.  A distance that is not 0 and the fraction of the length that
    amounts to it give the same parameter: when [u * getLength()] is the
    distance, [getUtoTmapping(u', distance)] is [getUtoTmapping(u)],
    whatever [u'] is. *)
Theorem distance_is_fraction {Point : Type} `{Vector Point}
  (evaluate : Q -> Point) (c : Curve) (len u u' dist : Q) :
  fst (getLength evaluate c) = Some len ->
  ~ dist == 0 ->
  u * len == dist ->
  sameNumber (fst (getUtoTmapping evaluate u' (Some dist) c))
             (fst (getUtoTmapping evaluate u None c)).
Proof.
  intros Hlen Hd Hu. rewrite getLength_run in Hlen. cbn [fst] in Hlen.
  rewrite !getUtoTmapping_run. cbn [fst].
  rewrite (remap_fraction _ u len Hlen), (remap_distance _ u' dist Hd).
  rewrite (searchIndex_target_ext _ (u * len) dist Hu).
  apply interpolate_target_ext. now symmetry.
Qed.

Lemma distance_is_fraction_witness :
  let c := newCurve (Some 10%nat) in
  sameNumber (fst (getUtoTmapping stairs 0 (Some (5 # 2)) c))
             (fst (getUtoTmapping stairs (1 # 4) None c)).
Proof.
  intro c.
  assert (Hlen : fst (getLength stairs c) = Some 10) by (vm_compute; reflexivity).
  apply (distance_is_fraction stairs c 10 (1 # 4) 0 (5 # 2) Hlen).
  - intro E. discriminate E.
  - reflexivity.
Defined.

(** ** The length of the curve *)

Lemma total_app (l l' : list Q) : total (l ++ l') == total l + total l'.
Proof.
  induction l as [|a l IH]; simpl.
  - rewrite Qplus_0_l. reflexivity.
  - rewrite IH. ring.
Qed.

Section Length.

Context {Point : Type} `{Vector Point}.
Variable evaluate : Q -> Point.
Variable d : nat.

(** Entry [k] of the table is the sum of the first [k] steps. *)
Lemma table_partial_sums (k : nat) : (k <= d)%nat ->
  exists a, nth_error (table evaluate d) k = Some a /\
            a == total (map (fun j => distanceTo (samplePoint evaluate d (S j))
                                                 (samplePoint evaluate d j))
                            (seq 0 k)).
Proof.
  induction k as [|k IH]; intro Hk.
  - exists 0. split; reflexivity.
  - destruct (IH ltac:(lia)) as [a [Ea Hs]].
    eexists. split; [exact (table_step evaluate d k a ltac:(lia) Ea)|].
    rewrite seq_S, map_app, total_app, <- Hs. simpl. ring.
Qed.

End Length.

(** X5.  [getLength()] is the length of the polyline through the sample
    points: the sum of the distances between consecutive samples at the
    curve's resolution.  With a distance that is never negative and is 0
    only between equal points it is not negative, no entry of the table
    exceeds it, and it is 0 only if every sample is the start point. *)
Theorem getLength_polyline {Point : Type} `{Metric Point}
  (evaluate : Q -> Point) (c : Curve) :
  cacheCurrent evaluate c ->
  let divisions := lengthsDivisions None c in
  exists len,
    fst (getLength evaluate c) = Some len /\
    len == total (steps evaluate divisions) /\
    0 <= len /\
    (forall i a, at_index (fst (getLengths evaluate None c)) i = Some a ->
                 a <= len) /\
    (len == 0 ->
     forall k, (k <= divisions)%nat ->
               samplePoint evaluate divisions k = evaluate 0).
Proof.
  intros Hc divisions. rewrite getLength_run. cbn [fst].
  rewrite (getLengths_table evaluate None c Hc). fold divisions.
  rewrite table_length.
  replace (Z.of_nat (S divisions) - 1)%Z with (Z.of_nat divisions) by lia.
  rewrite at_index_nat.
  destruct (table_partial_sums evaluate divisions divisions (le_n _))
    as [len [El Hs]].
  exists len. split; [exact El|]. split; [exact Hs|].
  pose proof (table_nonDecreasing evaluate divisions) as Hmono.
  assert (Elz : at_index (table evaluate divisions) (Z.of_nat divisions)
                = Some len) by (now rewrite at_index_nat).
  assert (Hbound : forall i a, at_index (table evaluate divisions) i = Some a ->
                               0 <= a <= len).
  { intros i a Ea. pose proof Ea as Er. apply at_index_Some in Er.
    destruct Er as [Hr _]. rewrite table_length in Hr. split.
    - apply (Hmono 0%Z i 0 a); [lia | reflexivity | exact Ea].
    - apply (Hmono i (Z.of_nat divisions) a len); [lia | exact Ea | exact Elz]. }
  split; [apply (Hbound _ len Elz)|].
  split; [intros i a Ea; apply (Hbound i a Ea)|].
  intros Hz k Hk.
  destruct (nth_error (table evaluate divisions) k) as [a|] eqn:Ea;
    [|apply nth_error_None in Ea; rewrite table_length in Ea; lia].
  assert (Ha : 0 <= a <= len)
    by (apply (Hbound (Z.of_nat k)); now rewrite at_index_nat).
  symmetry.
  apply (table_flat evaluate divisions 0 k 0 a);
    [lia | reflexivity | exact Ea | lra].
Qed.

Lemma getLength_polyline_witness :
  let c := newCurve (Some 10%nat) in
  exists len,
    fst (getLength stairs c) = Some len /\
    len == total (steps stairs 10) /\
    0 <= len /\
    (forall i a, at_index (fst (getLengths stairs None c)) i = Some a ->
                 a <= len) /\
    (len == 0 ->
     forall k, (k <= 10)%nat -> samplePoint stairs 10 k = stairs 0).
Proof.
  intro c.
  exact (getLength_polyline stairs c (cacheCurrent_new stairs _)).
Defined.

(** With a distance that obeys the triangle inequality, the table never
    grows by less than the chord. *)
Lemma table_dominates_chord {Point : Type} `{Vector Point}
  (evaluate : Q -> Point) (divisions : nat) (i j : nat) (a b : Q) :
  (forall p q r : Point, distanceTo p r <= distanceTo p q + distanceTo q r) ->
  (i < j)%nat ->
  nth_error (table evaluate divisions) i = Some a ->
  nth_error (table evaluate divisions) j = Some b ->
  distanceTo (samplePoint evaluate divisions j) (samplePoint evaluate divisions i)
  <= b - a.
Proof.
  intros Htri Hij Ea Eb.
  assert (Hj : (j < S divisions)%nat).
  { rewrite <- (table_length evaluate divisions). apply nth_error_Some. congruence. }
  replace j with (S (i + (j - i - 1)))%nat in * by lia.
  remember (j - i - 1)%nat as n eqn:En. clear En Hij.
  revert b Eb Hj. induction n as [|n IH]; intros b Eb Hj.
  - rewrite Nat.add_0_r in *.
    rewrite (table_step evaluate divisions i a ltac:(lia) Ea) in Eb.
    injection Eb as <-. cbn [samplePoint]. lra.
  - destruct (nth_error (table evaluate divisions) (S (i + n))) as [x|] eqn:Ex;
      [|apply nth_error_None in Ex; rewrite table_length in Ex; lia].
    pose proof (table_step evaluate divisions (S (i + n)) x ltac:(lia) Ex) as Hs.
    replace (S (i + S n))%nat with (S (S (i + n))) in * by lia.
    rewrite Hs in Eb. injection Eb as <-.
    specialize (IH x eq_refl ltac:(lia)).
    pose proof (Htri (samplePoint evaluate divisions (S (S (i + n))))
                     (samplePoint evaluate divisions (S (i + n)))
                     (samplePoint evaluate divisions i)) as Ht.
    cbn [samplePoint] in *. lra.
Qed.

Lemma line_triangle (p q r : Z) : distanceTo p r <= distanceTo p q + distanceTo q r.
Proof.
  simpl. rewrite <- inject_Z_plus, <- Zle_Qle. lia.
Qed.

(** X6.  With a distance that obeys the triangle inequality, the table of
    [getLengths] never grows by less than the chord: for sample indices
    [i < j] the distance from sample [j] to sample [i] is at most
    [table[j] - table[i]].  In particular the last entry, the length of the
    curve, is at least the distance between its last and first sample. *)
Theorem getLengths_dominates_chord {Point : Type} `{Vector Point}
  (evaluate : Q -> Point) (c : Curve) (divisions : option nat) :
  (forall p q r : Point, distanceTo p r <= distanceTo p q + distanceTo q r) ->
  cacheCurrent evaluate c ->
  let n := lengthsDivisions divisions c in
  let arcLengths := fst (getLengths evaluate divisions c) in
  (forall i j a b, (i < j)%nat ->
     nth_error arcLengths i = Some a -> nth_error arcLengths j = Some b ->
     distanceTo (samplePoint evaluate n j) (samplePoint evaluate n i) <= b - a) /\
  exists len, nth_error arcLengths n = Some len /\
              distanceTo (samplePoint evaluate n n) (evaluate 0) <= len.
Proof.
  intros Htri Hc n arcLengths.
  assert (E : arcLengths = table evaluate n)
    by apply (getLengths_table evaluate divisions c Hc).
  rewrite E. split.
  - intros i j a b. apply (table_dominates_chord evaluate n i j a b Htri).
  - destruct (nth_error (table evaluate n) n) as [len|] eqn:El;
      [|apply nth_error_None in El; rewrite table_length in El; lia].
    exists len. split; [reflexivity|].
    pose proof (table_dominates_chord evaluate n 0 n 0 len Htri
                  (lengthsDivisions_pos divisions c) eq_refl El) as Hch.
    change (samplePoint evaluate n 0) with (evaluate 0) in Hch. lra.
Qed.

Lemma getLengths_dominates_chord_witness :
  let arcLengths := fst (getLengths stairs None (newCurve (Some 10%nat))) in
  (forall i j a b, (i < j)%nat ->
     nth_error arcLengths i = Some a -> nth_error arcLengths j = Some b ->
     distanceTo (samplePoint stairs 10 j) (samplePoint stairs 10 i) <= b - a) /\
  exists len, nth_error arcLengths 10 = Some len /\
              distanceTo (samplePoint stairs 10 10) (stairs 0) <= len.
Proof.
  exact (getLengths_dominates_chord stairs (newCurve (Some 10%nat)) None
           line_triangle (cacheCurrent_new stairs _)).
Defined.

(** ** The evaluator is only asked about [0,1] *)

Lemma ofNat_fraction (p n : nat) : (p <= n)%nat -> (0 < n)%nat ->
  0 <= ofNat p / ofNat n <= 1.
Proof.
  intros Hp Hn. unfold ofNat. apply Qdiv_unit.
  - split; [change 0 with (inject_Z 0) |]; rewrite <- Zle_Qle; lia.
  - change 0 with (inject_Z 0). rewrite <- Zlt_Qlt. lia.
Qed.

Lemma fractions_inDomain (n first count : nat) :
  (0 < n)%nat -> (first + count <= S n)%nat ->
  Forall (fun t => 0 <= t <= 1)
         (map (fun p => ofNat p / ofNat n) (seq first count)).
Proof.
  intros Hn Hc. apply Forall_forall. intros t Ht.
  apply in_map_iff in Ht. destruct Ht as [p [<- Hp]].
  apply in_seq in Hp. apply ofNat_fraction; lia.
Qed.

Lemma inDomain_more (c : Curve) (params : list Q) :
  Forall (fun t => 0 <= t <= 1) params -> inDomain c ->
  inDomain (mkCurve (cacheArcLengths c) (needsUpdate c) (__arcLengthDivisions c)
                    (rev params ++ samples c)).
Proof.
  intros Hp Hc. unfold inDomain. cbn [samples].
  apply Forall_app. split; [now apply Forall_rev | exact Hc].
Qed.

Section Domain.

Context {Point : Type} `{Metric Point}.
Variable evaluate : Q -> Point.

Lemma inDomain_rebuilt (n : nat) (c : Curve) :
  (0 < n)%nat -> inDomain c -> inDomain (rebuilt evaluate n c).
Proof.
  intros Hn Hc. unfold inDomain, rebuilt. cbn [samples].
  apply Forall_app. split; [|exact Hc].
  apply Forall_rev. unfold sampleParams. constructor.
  - split; discriminate.
  - apply fractions_inDomain; [exact Hn | lia].
Qed.

Lemma inDomain_getLengths (divisions : option nat) (c : Curve) :
  inDomain c -> inDomain (snd (getLengths evaluate divisions c)).
Proof.
  intro Hc. rewrite getLengths_run.
  destruct (cacheHit (lengthsDivisions divisions c) c); [exact Hc|].
  apply inDomain_rebuilt; [apply lengthsDivisions_pos | exact Hc].
Qed.

Lemma inDomain_getPoint (t : Q) (c : Curve) :
  0 <= t <= 1 -> inDomain c -> inDomain (snd (getPoint evaluate t c)).
Proof. intros Ht Hc. constructor; assumption. Qed.

Lemma inDomain_getPoints (divisions : option nat) (c : Curve) :
  inDomain c -> inDomain (snd (getPoints evaluate divisions c)).
Proof.
  intro Hc. unfold getPoints.
  rewrite (forEach_map (fun p => ofNat p / ofNat (orDefault divisions 5))
                       (getPoint evaluate)).
  rewrite getPoints_run. cbn [snd]. apply inDomain_more; [|exact Hc].
  apply fractions_inDomain; [apply orDefault_pos; lia | lia].
Qed.

Lemma inDomain_getTangent (t : Q) (c : Curve) :
  0 <= t <= 1 -> inDomain c -> inDomain (snd (getTangent evaluate t c)).
Proof.
  intros [Ht0 Ht1] Hc. unfold inDomain.
  change (Forall (fun t0 => 0 <= t0 <= 1)
            (Qmin (t + delta) 1 :: Qmax (t - delta) 0 :: samples c)).
  unfold delta. constructor; [|constructor; [|exact Hc]].
  - split; [apply Q.min_glb; lra | apply Q.le_min_r].
  - split; [apply Q.le_max_r | apply Q.max_lub; lra].
Qed.

(** What [getUtoTmapping(u)] returns for [u] in [0,1], with the curve it
    leaves. *)
Lemma getUtoTmapping_unit (u : Q) (c : Curve) :
  cacheCurrent evaluate c -> 0 <= u <= 1 ->
  exists t, getUtoTmapping evaluate u None c
            = (Some t, snd (getLengths evaluate None c)) /\ 0 <= t <= 1.
Proof.
  intros Hc Hu. rewrite getUtoTmapping_run.
  rewrite (getLengths_table evaluate None c Hc).
  set (d := lengthsDivisions None c).
  assert (Hd : (0 < d)%nat) by apply lengthsDivisions_pos.
  destruct (table_last evaluate d Hd) as [last [Elast Hl]]. cbv zeta in Elast.
  rewrite (remap_fraction _ u last Elast).
  destruct (remap_target_range evaluate d Hd last (u * last) Elast ltac:(nra))
    as [t [Et Ht]].
  exists t. rewrite Et. split; [reflexivity | exact Ht].
Qed.

Lemma inDomain_getPointAt (u : Q) (c : Curve) :
  cacheCurrent evaluate c -> 0 <= u <= 1 -> inDomain c ->
  inDomain (snd (getPointAt evaluate u c)).
Proof.
  intros Hc Hu Hd.
  destruct (getUtoTmapping_unit u c Hc Hu) as [t [Et Ht]].
  unfold getPointAt. rewrite run_bind, Et. cbn [fst snd].
  rewrite run_bind. cbn [ret snd].
  apply inDomain_getPoint; [exact Ht | now apply inDomain_getLengths].
Qed.

Lemma inDomain_getTangentAt (u : Q) (c : Curve) :
  cacheCurrent evaluate c -> 0 <= u <= 1 -> inDomain c ->
  inDomain (snd (getTangentAt evaluate u c)).
Proof.
  intros Hc Hu Hd.
  destruct (getUtoTmapping_unit u c Hc Hu) as [t [Et Ht]].
  unfold getTangentAt. rewrite run_bind, Et. cbn [fst snd].
  rewrite run_bind. cbn [ret snd].
  apply inDomain_getTangent; [exact Ht | now apply inDomain_getLengths].
Qed.

Lemma forEach_keeps {A B : Type} (Inv : Curve -> Prop) (body : A -> M B)
  (xs : list A) :
  (forall x c, In x xs -> Inv c -> Inv (snd (body x c))) ->
  forall c, Inv c -> Inv (snd (forEach body xs c)).
Proof.
  induction xs as [|x xs IH]; intros Hb c Hc; [exact Hc|].
  cbn [forEach]. rewrite !run_bind. cbn [ret snd].
  apply IH.
  - intros y c0 Hy. apply Hb. now right.
  - apply Hb; [now left | exact Hc].
Qed.

Lemma inDomain_getSpacedPoints (divisions : option nat) (c : Curve) :
  cacheCurrent evaluate c -> inDomain c ->
  inDomain (snd (getSpacedPoints evaluate divisions c)).
Proof.
  intros Hc Hd. unfold getSpacedPoints.
  apply (forEach_keeps (fun c0 => cacheCurrent evaluate c0 /\ inDomain c0));
    [|now split].
  intros p c0 Hp [Hc0 Hd0]. apply in_seq in Hp. split.
  - now apply cacheCurrent_getPointAt.
  - apply inDomain_getPointAt; [exact Hc0 | | exact Hd0].
    apply ofNat_fraction; [lia | apply orDefault_pos; lia].
Qed.

End Domain.

(** X7.  The methods ask the shape for points only at parameters in [0,1]:
    on a curve whose cache is current and whose evaluator has so far been
    called within [0,1] only, that is still so after [getLengths],
    [getPoints], [getSpacedPoints] and [updateArcLengths] with any division
    count, after [getPointAt(u)] and [getTangentAt(u)] for [u] in [0,1], and
    after [getTangent(t)] for [t] in [0,1]. *)
Theorem evaluator_domain {Point : Type} `{Metric Point}
  (evaluate : Q -> Point) (c : Curve) :
  cacheCurrent evaluate c -> inDomain c ->
  (forall divisions, inDomain (snd (getLengths evaluate divisions c))) /\
  (forall divisions, inDomain (snd (getPoints evaluate divisions c))) /\
  (forall divisions, inDomain (snd (getSpacedPoints evaluate divisions c))) /\
  inDomain (snd (updateArcLengths evaluate c)) /\
  inDomain (snd (getLength evaluate c)) /\
  (forall u, 0 <= u <= 1 ->
     inDomain (snd (getUtoTmapping evaluate u None c)) /\
     inDomain (snd (getPointAt evaluate u c)) /\
     inDomain (snd (getTangentAt evaluate u c))) /\
  (forall t, 0 <= t <= 1 -> inDomain (snd (getTangent evaluate t c))).
Proof.
  intros Hc Hd.
  split; [intro; now apply inDomain_getLengths|].
  split; [intro; now apply inDomain_getPoints|].
  split; [intro; now apply inDomain_getSpacedPoints|].
  split.
  { rewrite updateArcLengths_run. cbn [snd].
    apply inDomain_rebuilt; [apply lengthsDivisions_pos | exact Hd]. }
  split.
  { rewrite getLength_run. cbn [snd]. now apply inDomain_getLengths. }
  split.
  - intros u Hu. split; [|split].
    + rewrite getUtoTmapping_run. cbn [snd]. now apply inDomain_getLengths.
    + now apply inDomain_getPointAt.
    + now apply inDomain_getTangentAt.
  - intros t Ht. now apply inDomain_getTangent.
Qed.

Lemma evaluator_domain_witness :
  inDomain (snd (getSpacedPoints stairs (Some 4%nat) (newCurve (Some 10%nat)))).
Proof.
  destruct (evaluator_domain stairs (newCurve (Some 10%nat))
              (cacheCurrent_new stairs _) (Forall_nil _))
    as [_ [_ [Hs _]]].
  apply Hs.
Defined.

(** ** The sequences of points *)

Lemma Forall2_nth_error {A B : Type} (P : A -> B -> Prop) (l : list A)
  (l' : list B) :
  Forall2 P l l' ->
  forall k x, nth_error l k = Some x ->
              exists y, nth_error l' k = Some y /\ P x y.
Proof.
  induction 1 as [|a b l l' Hab _ IH]; intros k x E.
  - destruct k; discriminate.
  - destruct k as [|k]; simpl in *.
    + injection E as <-. eauto.
    + now apply IH.
Qed.

Lemma forEach_results {A B : Type} (Inv : Curve -> Prop) (P : A -> B -> Prop)
  (body : A -> M B) (xs : list A) :
  (forall x c, In x xs -> Inv c ->
               Inv (snd (body x c)) /\ P x (fst (body x c))) ->
  forall c, Inv c -> Forall2 P xs (fst (forEach body xs c)).
Proof.
  induction xs as [|x xs IH]; intros Hb c Hc; [constructor|].
  cbn [forEach]. rewrite !run_bind. cbn [ret fst].
  destruct (Hb x c (or_introl eq_refl) Hc) as [Hc' Hp].
  constructor; [exact Hp|].
  apply IH; [|exact Hc'].
  intros y c0 Hy. apply Hb. now right.
Qed.

Section Ends.

Context {Point : Type} `{Metric Point}.
Variable evaluate : Q -> Point.
Hypothesis evaluate_ext : forall a b : Q, a == b -> evaluate a = evaluate b.

(** [getPointAt(u)] for [u] in [0,1] is a point of the curve; for the
    numbers 0 and 1 it is the start point and the end point. *)
Lemma getPointAt_unit (u : Q) (c : Curve) :
  cacheCurrent evaluate c -> 0 <= u <= 1 ->
  exists t, 0 <= t <= 1 /\
    fst (getPointAt evaluate u c) = Some (evaluate t) /\
    (u == 0 -> fst (getPointAt evaluate u c) = Some (evaluate 0)) /\
    (u == 1 -> fst (getPointAt evaluate u c) = Some (evaluate 1)).
Proof.
  intros Hc Hu.
  destruct (getUtoTmapping_unit evaluate u c Hc Hu) as [t [Et Ht]].
  exists t. split; [exact Ht|].
  rewrite getPointAt_run, Et. cbn [fst option_map]. split; [reflexivity|].
  assert (Er : remap (table evaluate (lengthsDivisions None c)) u None = Some t).
  { rewrite getUtoTmapping_run, (getLengths_table evaluate None c Hc) in Et.
    now injection Et. }
  set (d := lengthsDivisions None c) in *.
  assert (Hd : (0 < d)%nat) by apply lengthsDivisions_pos.
  destruct (table_last evaluate d Hd) as [last [Elast Hl]]. cbv zeta in Elast.
  rewrite (remap_fraction _ u last Elast) in Er.
  pose proof (table_N evaluate d Hd) as HN. cbv zeta in HN.
  destruct (remap_ends evaluate d Hd evaluate_ext last Elast)
    as [[a0 [Ea0 [Ha0 [_ Hp0]]]] [a1 [Ea1 [Ha1 [_ Hp1]]]]].
  split; intro Eu.
  - assert (E : u * last == 0 * last) by (rewrite Eu; reflexivity).
    change (option_map evaluate (Some t) = Some (evaluate 0)). rewrite <- Er.
    rewrite (searchIndex_target_ext _ _ _ E).
    rewrite (interpolate_exact _ (u * last) _ a0);
      [| rewrite table_length; lia | exact Ea0 | lra].
    cbn [option_map]. now rewrite Hp0.
  - assert (E : u * last == 1 * last) by (rewrite Eu; reflexivity).
    change (option_map evaluate (Some t) = Some (evaluate 1)). rewrite <- Er.
    rewrite (searchIndex_target_ext _ _ _ E).
    rewrite (interpolate_exact _ (u * last) _ a1);
      [| rewrite table_length; lia | exact Ea1 | lra].
    cbn [option_map]. now rewrite Hp1.
Qed.

End Ends.

(** X8.  On a curve whose cache is current, [getSpacedPoints(divisions)]
    returns [divisions + 1] points (6 without a count), every one a point
    of the curve at a parameter in [0,1]; the first is [getPoint(0)] and the
    last is [getPoint(1)]. *)
Theorem getSpacedPoints_ends {Point : Type} `{Metric Point}
  (evaluate : Q -> Point) (c : Curve) (divisions : option nat) :
  (forall a b : Q, a == b -> evaluate a = evaluate b) ->
  cacheCurrent evaluate c ->
  let n := orDefault divisions 5 in
  let points := fst (getSpacedPoints evaluate divisions c) in
  length points = S n /\
  (forall k r, nth_error points k = Some r ->
               exists t, 0 <= t <= 1 /\ r = Some (evaluate t)) /\
  nth_error points 0 = Some (Some (evaluate 0)) /\
  nth_error points n = Some (Some (evaluate 1)).
Proof.
  intros Hext Hc n points.
  assert (Hn : (0 < n)%nat) by (apply orDefault_pos; lia).
  assert (HL : length points = S n).
  { unfold points, getSpacedPoints. now rewrite forEach_length, length_seq. }
  assert (HF : Forall2
                 (fun (k : nat) (r : option Point) =>
                    exists t, 0 <= t <= 1 /\ r = Some (evaluate t) /\
                      (k = 0%nat -> r = Some (evaluate 0)) /\
                      (k = n -> r = Some (evaluate 1)))
                 (seq 0 (S n)) points).
  { unfold points, getSpacedPoints. fold n.
    apply (forEach_results (cacheCurrent evaluate)); [|exact Hc].
    intros k c0 Hk Hc0. apply in_seq in Hk.
    split; [now apply cacheCurrent_getPointAt|].
    destruct (getPointAt_unit evaluate Hext (ofNat k / ofNat n) c0 Hc0
                (ofNat_fraction k n ltac:(lia) Hn)) as [t [Ht [Et [E0 E1]]]].
    exists t. split; [exact Ht|]. split; [exact Et|]. split.
    - intros ->. apply E0. unfold Qdiv. change (ofNat 0) with 0.
      now rewrite Qmult_0_l.
    - intros ->. apply E1. unfold ofNat. field.
      apply inject_Z_nonzero. lia. }
  split; [exact HL|]. split; [|split].
  - intros k r Er.
    assert (Hk : (k < S n)%nat)
      by (rewrite <- HL; apply nth_error_Some; congruence).
    destruct (Forall2_nth_error _ _ _ HF k k) as [r' [Er' [t [Ht [Et _]]]]].
    { rewrite nth_error_seq. destruct (Nat.ltb_spec k (S n)); [reflexivity | lia]. }
    rewrite Er in Er'. injection Er' as <-. eauto.
  - destruct (Forall2_nth_error _ _ _ HF 0%nat 0%nat eq_refl)
      as [r [Er [t [_ [_ [E0 _]]]]]].
    now rewrite Er, E0.
  - destruct (Forall2_nth_error _ _ _ HF n n) as [r [Er [t [_ [_ [_ E1]]]]]].
    { rewrite nth_error_seq. destruct (Nat.ltb_spec n (S n)); [reflexivity | lia]. }
    now rewrite Er, E1.
Qed.

Lemma getSpacedPoints_ends_witness :
  let points := fst (getSpacedPoints stairs (Some 4%nat) (newCurve (Some 10%nat))) in
  length points = 5%nat /\
  (forall k r, nth_error points k = Some r ->
               exists t, 0 <= t <= 1 /\ r = Some (stairs t)) /\
  nth_error points 0 = Some (Some (stairs 0)) /\
  nth_error points 4 = Some (Some (stairs 1)).
Proof.
  exact (getSpacedPoints_ends stairs (newCurve (Some 10%nat)) (Some 4%nat)
           stairs_ext (cacheCurrent_new stairs _)).
Defined.

(** X9.  [getPoints(divisions)] returns [divisions + 1] points (6 without a
    count), the point at [d / divisions] for [d] from 0 to [divisions]: the
    first is [getPoint(0)], the last [getPoint(1)].  It calls the evaluator
    once per point and leaves the cache alone. *)
Theorem getPoints_uniform {Point : Type} `{Vector Point}
  (evaluate : Q -> Point) (c : Curve) (divisions : option nat) :
  (forall a b : Q, a == b -> evaluate a = evaluate b) ->
  let n := orDefault divisions 5 in
  let points := fst (getPoints evaluate divisions c) in
  let c' := snd (getPoints evaluate divisions c) in
  points = map (fun k => evaluate (ofNat k / ofNat n)) (seq 0 (S n)) /\
  length points = S n /\
  nth_error points 0 = Some (evaluate 0) /\
  nth_error points n = Some (evaluate 1) /\
  cacheArcLengths c' = cacheArcLengths c /\
  needsUpdate c' = needsUpdate c /\
  length (samples c') = (length (samples c) + S n)%nat.
Proof.
  intros Hext n points c'.
  assert (Hn : (0 < n)%nat) by (apply orDefault_pos; lia).
  assert (E : getPoints evaluate divisions c
              = (map evaluate (map (fun k => ofNat k / ofNat n) (seq 0 (S n))),
                 mkCurve (cacheArcLengths c) (needsUpdate c)
                         (__arcLengthDivisions c)
                         (rev (map (fun k => ofNat k / ofNat n) (seq 0 (S n)))
                          ++ samples c))).
  { unfold getPoints. fold n.
    rewrite (forEach_map (fun k => ofNat k / ofNat n) (getPoint evaluate)).
    apply getPoints_run. }
  unfold points, c'. rewrite E. cbn [fst snd]. rewrite map_map.
  split; [reflexivity|].
  split; [now rewrite length_map, length_seq|].
  split.
  { cbn [seq map nth_error]. f_equal. apply Hext.
    unfold Qdiv. change (ofNat 0) with 0. now rewrite Qmult_0_l. }
  split.
  { rewrite nth_error_map, nth_error_seq.
    destruct (Nat.ltb_spec n (S n)); [|lia]. cbn [option_map]. f_equal.
    apply Hext. unfold ofNat. simpl Nat.add. field.
    apply inject_Z_nonzero. lia. }
  split; [reflexivity|]. split; [reflexivity|].
  cbn [samples]. rewrite length_app, length_rev, length_map, length_seq. lia.
Qed.

Lemma getPoints_uniform_witness :
  let points := fst (getPoints stairs (Some 4%nat) (newCurve None)) in
  nth_error points 0 = Some (stairs 0) /\ nth_error points 4 = Some (stairs 1).
Proof.
  destruct (getPoints_uniform stairs (newCurve None) (Some 4%nat) stairs_ext)
    as [_ [_ [H0 [H1 _]]]].
  split; [exact H0 | exact H1].
Defined.

(** ** The cache holds one table *)

(** X10.  The cache holds one table: after a [getLengths] with one division
    count, a [getLengths] with another count finds nothing to reuse, samples
    the evaluator and rebuilds.  ([getUtoTmapping] always asks for the
    default count, so a [getLengths] with another count in between costs it a
    rebuild.) *)
Theorem cache_holds_one_table {Point : Type} `{Vector Point}
  (evaluate : Q -> Point) (c : Curve) (a b : option nat) :
  lengthsDivisions a c <> lengthsDivisions b c ->
  let c1 := snd (getLengths evaluate b c) in
  getLengths evaluate a c1
  = (table evaluate (lengthsDivisions a c),
     rebuilt evaluate (lengthsDivisions a c) c1) /\
  resamples evaluate a c1.
Proof.
  intros Hab c1.
  assert (Hconf : lengthsDivisions a c1 = lengthsDivisions a c).
  { unfold c1, lengthsDivisions. now rewrite getLengths_config. }
  assert (Hmiss : cacheHit (lengthsDivisions a c) c1 = false).
  { unfold c1. rewrite getLengths_run.
    destruct (cacheHit (lengthsDivisions b c) c) eqn:Hit; cbn [snd].
    - unfold cacheHit in *. destruct (cacheArcLengths c) as [cache|];
        [|discriminate].
      apply andb_true_iff in Hit. destruct Hit as [Hl _].
      apply Nat.eqb_eq in Hl.
      replace (length cache =? lengthsDivisions a c + 1)%nat with false
        by (symmetry; apply Nat.eqb_neq; lia).
      reflexivity.
    - unfold cacheHit. cbn [rebuilt cacheArcLengths needsUpdate].
      rewrite table_length.
      replace (S (lengthsDivisions b c) =? lengthsDivisions a c + 1)%nat
        with false by (symmetry; apply Nat.eqb_neq; lia).
      reflexivity. }
  assert (R : getLengths evaluate a c1
              = (table evaluate (lengthsDivisions a c),
                 rebuilt evaluate (lengthsDivisions a c) c1)).
  { rewrite getLengths_run, Hconf, Hmiss. reflexivity. }
  split; [exact R|].
  unfold resamples. rewrite R. cbn [snd rebuilt samples]. intro Hs.
  apply (f_equal (@length Q)) in Hs.
  rewrite length_app, length_rev in Hs. simpl in Hs. lia.
Qed.

Lemma cache_holds_one_table_witness :
  let c1 := snd (getLengths stairs (Some 4%nat) (newCurve (Some 10%nat))) in
  resamples stairs None c1.
Proof.
  intro c1.
  destruct (cache_holds_one_table stairs (newCurve (Some 10%nat))
              None (Some 4%nat)) as [_ Hr].
  - discriminate.
  - exact Hr.
Defined.

(** ** The cost of the search *)

Lemma searchTrace_search (arr : list Q) (target : Q) (fuel : nat) :
  forall low high,
    fst (searchTrace fuel arr target low high) = search fuel arr target low high.
Proof.
  induction fuel as [|fuel IH]; intros low high; [reflexivity|].
  simpl. destruct (low <=? high)%Z; [|reflexivity].
  destruct (at_index arr (low + (high - low) / 2)) as [a|]; [|reflexivity].
  destruct (Qcompare (a - target) 0); [reflexivity | |].
  - rewrite <- IH.
    destruct (searchTrace fuel arr target (low + (high - low) / 2 + 1) high).
    reflexivity.
  - rewrite <- IH.
    destruct (searchTrace fuel arr target low (low + (high - low) / 2 - 1)).
    reflexivity.
Qed.

Lemma searchTrace_reads (arr : list Q) (target : Q) (fuel : nat) :
  forall (k : nat) (low high : Z),
    (0 <= low)%Z -> (high < Z.of_nat (length arr))%Z ->
    (high - low + 1 < 2 ^ Z.of_nat k)%Z ->
    Forall (fun i => 0 <= i < Z.of_nat (length arr))%Z
           (snd (searchTrace fuel arr target low high)) /\
    (length (snd (searchTrace fuel arr target low high)) <= k)%nat.
Proof.
  induction fuel as [|fuel IH]; intros k low high Hlow Hhigh Hk.
  - simpl. split; [constructor | lia].
  - simpl. destruct (Z.leb_spec low high) as [Hle|Hgt];
      [|simpl; split; [constructor | lia]].
    pose proof (midpoint_bounds low high Hle) as Hm.
    set (i := (low + (high - low) / 2)%Z) in *.
    assert (Hi : (0 <= i < Z.of_nat (length arr))%Z) by lia.
    destruct k as [|k].
    { simpl in Hk. lia. }
    assert (Hp : (2 ^ Z.of_nat (S k) = 2 * 2 ^ Z.of_nat k)%Z).
    { rewrite Nat2Z.inj_succ. apply Z.pow_succ_r. lia. }
    assert (Hhalf : (high - (i + 1) + 1 < 2 ^ Z.of_nat k)%Z /\
                    ((i - 1) - low + 1 < 2 ^ Z.of_nat k)%Z).
    { unfold i in *. rewrite Hp in Hk.
      pose proof (Z.div_mod (high - low) 2 ltac:(lia)) as Hdm.
      pose proof (Z.mod_pos_bound (high - low) 2 ltac:(lia)) as Hmod.
      lia. }
    destruct Hhalf as [Hr Hl].
    destruct (at_index arr i) as [a|];
      [|simpl; split; [constructor; [exact Hi | constructor] | lia]].
    destruct (Qcompare (a - target) 0).
    + simpl. split; [constructor; [exact Hi | constructor] | lia].
    + destruct (IH k (i + 1)%Z high ltac:(lia) Hhigh Hr) as [Hf Hn].
      destruct (searchTrace fuel arr target (i + 1) high) as [r reads].
      simpl in *. split; [constructor; assumption | lia].
    + destruct (IH k low (i - 1)%Z Hlow ltac:(lia) Hl) as [Hf Hn].
      destruct (searchTrace fuel arr target low (i - 1)) as [r reads].
      simpl in *. split; [constructor; assumption | lia].
Qed.

(** X11.  The search of [getUtoTmapping] reads the table only inside its
    bounds, and at most [floor(log2 N) + 1] times for a table of [N]
    entries, sorted or not: 8 reads for the 201 entries of the default
    resolution. *)
Theorem search_reads_logarithmic (arcLengths : list Q) (target : Q) :
  let N := Z.of_nat (length arcLengths) in
  let run := searchTrace (length arcLengths) arcLengths target 0 (N - 1) in
  fst run = searchIndex arcLengths target /\
  Forall (fun i => 0 <= i < N)%Z (snd run) /\
  (Z.of_nat (length (snd run)) <= Z.log2 N + 1)%Z.
Proof.
  intros N run. split; [apply searchTrace_search|].
  destruct (searchTrace_reads arcLengths target (length arcLengths)
              (S (Z.to_nat (Z.log2 N))) 0 (N - 1)) as [Hf Hn].
  - lia.
  - unfold N. lia.
  - rewrite Nat2Z.inj_succ, Z2Nat.id by apply Z.log2_nonneg.
    destruct (Z.eq_dec N 0) as [E|E].
    + rewrite E. simpl. lia.
    + pose proof (Z.log2_spec N ltac:(unfold N in *; lia)) as Hs.
      unfold N in *. lia.
  - fold run in Hf, Hn. split; [exact Hf|].
    pose proof (Z.log2_nonneg N). lia.
Qed.

(** * The cache between calls *)

Section Between.

Context {Point : Type} `{Vector Point}.
Variable evaluate : Q -> Point.

(** Cache, flag and configured resolution of [c1] are those of [c0]. *)
Let same (c0 c1 : Curve) : Prop :=
  cacheArcLengths c1 = cacheArcLengths c0 /\
  needsUpdate c1 = needsUpdate c0 /\
  __arcLengthDivisions c1 = __arcLengthDivisions c0.

Lemma same_getPoint (c0 c1 : Curve) (t : Q) :
  same c0 c1 -> same c0 (snd (getPoint evaluate t c1)).
Proof. intro Hs. exact Hs. Qed.

Lemma same_getTangent (c0 c1 : Curve) (t : Q) :
  same c0 c1 -> same c0 (snd (getTangent evaluate t c1)).
Proof. intro Hs. exact Hs. Qed.

Lemma same_getPoints (c0 c1 : Curve) (n : option nat) :
  same c0 c1 -> same c0 (snd (getPoints evaluate n c1)).
Proof.
  intro Hs. unfold getPoints.
  rewrite (forEach_map (fun d => ofNat d / ofNat (orDefault n 5))
                       (getPoint evaluate)).
  rewrite getPoints_run. exact Hs.
Qed.

(** After a [getLengths] the cache answers that division count. *)
Lemma getLengths_hit (divisions : option nat) (c : Curve) :
  cacheHit (lengthsDivisions divisions c) (snd (getLengths evaluate divisions c))
  = true.
Proof.
  rewrite getLengths_run.
  destruct (cacheHit (lengthsDivisions divisions c) c) eqn:Hit;
    [exact Hit|].
  unfold cacheHit. cbn [snd rebuilt cacheArcLengths needsUpdate].
  rewrite table_length. apply andb_true_iff. split; [|reflexivity].
  apply Nat.eqb_eq. lia.
Qed.

Variable d : nat.
Variable c0 : Curve.
Hypothesis hit : cacheHit d c0 = true.

(** A [getLengths] at the cached count leaves the curve as it is. *)
Lemma same_getLengths_unchanged (c1 : Curve) (n : option nat) :
  same c0 c1 -> lengthsDivisions n c1 = d ->
  snd (getLengths evaluate n c1) = c1.
Proof.
  intros [Hc [Hf _]] Hd. rewrite getLengths_run, Hd.
  replace (cacheHit d c1) with true; [reflexivity|].
  rewrite <- hit. unfold cacheHit. now rewrite Hc, Hf.
Qed.

Lemma same_getUtoTmapping (c1 : Curve) (u : Q) (distance : option Q) :
  same c0 c1 -> lengthsDivisions None c1 = d ->
  snd (getUtoTmapping evaluate u distance c1) = c1.
Proof.
  intros Hs Hd. rewrite getUtoTmapping_run. cbn [snd].
  now apply same_getLengths_unchanged.
Qed.

Lemma same_getPointAt (c1 : Curve) (u : Q) :
  same c0 c1 -> lengthsDivisions None c1 = d ->
  same c0 (snd (getPointAt evaluate u c1)) /\
  lengthsDivisions None (snd (getPointAt evaluate u c1)) = d.
Proof.
  intros Hs Hd. unfold getPointAt. rewrite run_bind.
  rewrite (same_getUtoTmapping c1 u None Hs Hd).
  destruct (fst (getUtoTmapping evaluate u None c1)) as [t|].
  - rewrite run_bind. cbn [ret snd]. split; [exact Hs | exact Hd].
  - split; [exact Hs | exact Hd].
Qed.

Lemma same_getTangentAt (c1 : Curve) (u : Q) :
  same c0 c1 -> lengthsDivisions None c1 = d ->
  same c0 (snd (getTangentAt evaluate u c1)).
Proof.
  intros Hs Hd. unfold getTangentAt. rewrite run_bind.
  rewrite (same_getUtoTmapping c1 u None Hs Hd).
  destruct (fst (getUtoTmapping evaluate u None c1)) as [t|].
  - rewrite run_bind. cbn [ret snd]. now apply same_getTangent.
  - exact Hs.
Qed.

Lemma same_getSpacedPoints (c1 : Curve) (n : option nat) :
  same c0 c1 -> lengthsDivisions None c1 = d ->
  same c0 (snd (getSpacedPoints evaluate n c1)).
Proof.
  intros Hs Hd. unfold getSpacedPoints.
  apply (forEach_keeps
           (fun c => same c0 c /\ lengthsDivisions None c = d)
           (fun k => getPointAt evaluate (ofNat k / ofNat (orDefault n 5)))).
  - intros k c _ [Hc Hdc]. now apply same_getPointAt.
  - split; assumption.
Qed.

Lemma undisturbed_same (c1 : Curve) :
  Undisturbed evaluate d c0 c1 -> same c0 c1.
Proof.
  induction 1 as [|c1 t _ IH|c1 n _ IH|c1 t _ IH|c1 n _ IH Hd|c1 _ IH Hd
                  |c1 u dist _ IH Hd|c1 u _ IH Hd|c1 u _ IH Hd|c1 n _ IH Hd].
  - repeat split.
  - now apply same_getPoint.
  - now apply same_getPoints.
  - now apply same_getTangent.
  - now rewrite (same_getLengths_unchanged c1 n IH Hd).
  - rewrite getLength_run. cbn [snd].
    now rewrite (same_getLengths_unchanged c1 None IH Hd).
  - now rewrite (same_getUtoTmapping c1 u dist IH Hd).
  - now apply same_getPointAt.
  - now apply same_getTangentAt.
  - now apply same_getSpacedPoints.
Qed.

End Between.

(** C5, as the code has it.  After a [getLengths] with some division count,
    and as long as the calls since then were calls of the evaluator, of
    [getPoints], of [getTangent], of [getLengths] at that count and, if that
    count is the curve's own resolution, of the methods that remap
    ([getLength], [getUtoTmapping], [getPointAt], [getTangentAt],
    [getSpacedPoints]), a [getLengths] with the same division count returns
    the same table and leaves the whole curve as it finds it: cache, flag,
    configuration and the record of evaluator calls, so the evaluator is not
    called again. *)
Theorem getLengths_reuse {Point : Type} `{Vector Point}
  (evaluate : Q -> Point) (divisions : option nat) (c c1 : Curve) :
  let first := getLengths evaluate divisions c in
  Undisturbed evaluate (lengthsDivisions divisions c) (snd first) c1 ->
  getLengths evaluate divisions c1 = (fst first, c1) /\
  ~ resamples evaluate divisions c1.
Proof.
  intros first Hu.
  destruct (undisturbed_same evaluate _ _ (getLengths_hit evaluate divisions c)
              c1 Hu) as [Hc [Hf Hconf]].
  assert (E : getLengths evaluate divisions c1 = (fst first, c1))
    by now apply getLengths_stable.
  split; [exact E|].
  unfold resamples. rewrite E. intro Hne. now apply Hne.
Qed.

Lemma getLengths_reuse_witness :
  let c := newCurve (Some 10%nat) in
  let first := getLengths stairs None c in
  let c1 := snd (getPointAt stairs (1 # 2)
                   (snd (getPoints stairs (Some 3%nat) (snd first)))) in
  getLengths stairs None c1 = (fst first, c1) /\
  ~ resamples stairs None c1.
Proof.
  intros c first c1.
  apply (getLengths_reuse stairs None c c1).
  apply undisturbed_getPointAt; [|reflexivity].
  apply undisturbed_getPoints. apply undisturbed_start.
Defined.

(** C5, as stated, fails: [getLengths(4); getPointAt(1/2); getLengths(4)].
    Nothing invalidates the cache in between, but [getPointAt] calls
    [getLengths()], which replaces the table of 4 divisions by one of 200;
    the second [getLengths(4)] then samples its 5 points again and replaces
    the cache once more. *)
Lemma getPointAt_displaces_table :
  let c := snd (getLengths stairs (Some 4%nat) (newCurve None)) in
  let c1 := snd (getPointAt stairs (1 # 2) c) in
  needsUpdate c = false /\ needsUpdate c1 = false /\
  resamples stairs (Some 4%nat) c1 /\
  length (samples (snd (getLengths stairs (Some 4%nat) c1)))
  = (length (samples c1) + 5)%nat /\
  cacheArcLengths (snd (getLengths stairs (Some 4%nat) c1)) <> cacheArcLengths c1.
Proof.
  intros c c1.
  assert (E : length (samples (snd (getLengths stairs (Some 4%nat) c1)))
              = (length (samples c1) + 5)%nat) by (vm_compute; reflexivity).
  split; [reflexivity|]. split; [vm_compute; reflexivity|].
  split; [|split; [exact E|]].
  - unfold resamples. intro Hs. rewrite Hs in E. lia.
  - intro Hc. apply (f_equal (option_map (@length Q))) in Hc.
    vm_compute in Hc. discriminate Hc.
Qed.

(** ** Division counts that are 0 *)

(** [getPointAt] leaves the cache, the flag and the configured resolution as
    its [getLengths()] left them. *)
Lemma getPointAt_state {Point : Type} `{Vector Point} (evaluate : Q -> Point)
  (u : Q) (c : Curve) :
  let c1 := snd (getLengths evaluate None c) in
  let c2 := snd (getPointAt evaluate u c) in
  cacheArcLengths c2 = cacheArcLengths c1 /\
  needsUpdate c2 = needsUpdate c1 /\
  __arcLengthDivisions c2 = __arcLengthDivisions c1.
Proof.
  intros c1 c2. unfold c2, getPointAt. rewrite run_bind, getUtoTmapping_run.
  cbn [fst snd]. fold c1.
  destruct (remap (fst (getLengths evaluate None c)) u None) as [t|].
  - rewrite run_bind. cbn [ret snd]. repeat split.
  - repeat split.
Qed.

(** The results of a run of [getPointAt] calls are the results each call
    has on the curve as the run finds it: the table is built once. *)
Lemma getPointAt_results {Point : Type} `{Vector Point} (evaluate : Q -> Point)
  (us : list Q) :
  forall c c1 : Curve,
    fst (getLengths evaluate None c1) = fst (getLengths evaluate None c) ->
    fst (forEach (getPointAt evaluate) us c1)
    = map (fun u => fst (getPointAt evaluate u c)) us.
Proof.
  induction us as [|u us IH]; intros c c1 E; [reflexivity|].
  cbn [forEach map]. rewrite !run_bind. cbn [ret fst]. f_equal.
  - rewrite !getPointAt_run, !getUtoTmapping_run. cbn [fst]. now rewrite E.
  - apply IH. rewrite <- E.
    destruct (getPointAt_state evaluate u c1) as [Hc [Hf Hconf]].
    now rewrite (getLengths_stable evaluate None c1 _ Hc Hf Hconf).
Qed.

(** C10.  A division count of 0 is falsy and is replaced like an omitted
    one.  [getPoints(0)] is [getPoints()]: the 6 points [getPoint(d / 5)]
    for [d] from 0 to 5.  [getSpacedPoints(0)] is [getSpacedPoints()]: the 6
    results [getPointAt(d / 5)] for [d] from 0 to 5, each being the point
    at the parameter the table maps [d / 5] to.  [getLengths(0)] is
    [getLengths()], whose table has the configured number of divisions, or
    200, plus one entries. *)
Theorem zero_divisions_is_default {Point : Type} `{Vector Point}
  (evaluate : Q -> Point) (c : Curve) :
  getPoints evaluate (Some 0%nat) c = getPoints evaluate None c /\
  fst (getPoints evaluate (Some 0%nat) c)
  = map (fun d => evaluate (ofNat d / ofNat 5)) (seq 0 6) /\
  getSpacedPoints evaluate (Some 0%nat) c = getSpacedPoints evaluate None c /\
  fst (getSpacedPoints evaluate (Some 0%nat) c)
  = map (fun d => fst (getPointAt evaluate (ofNat d / ofNat 5) c)) (seq 0 6) /\
  (forall u, fst (getPointAt evaluate u c)
             = option_map evaluate
                 (remap (fst (getLengths evaluate None c)) u None)) /\
  length (fst (getSpacedPoints evaluate (Some 0%nat) c)) = 6%nat /\
  getLengths evaluate (Some 0%nat) c = getLengths evaluate None c /\
  length (fst (getLengths evaluate (Some 0%nat) c))
  = S (orDefault (__arcLengthDivisions c) 200).
Proof.
  split; [reflexivity|]. split.
  { unfold getPoints. cbn [orDefault].
    rewrite (forEach_map (fun d => ofNat d / ofNat 5) (getPoint evaluate)).
    rewrite getPoints_run. cbn [fst]. now rewrite map_map. }
  split; [reflexivity|]. split.
  { unfold getSpacedPoints. cbn [orDefault].
    rewrite (forEach_map (fun d => ofNat d / ofNat 5) (getPointAt evaluate)).
    rewrite (getPointAt_results evaluate _ c c eq_refl). now rewrite map_map. }
  split.
  { intro u. now rewrite getPointAt_run, getUtoTmapping_run. }
  split.
  { unfold getSpacedPoints. now rewrite forEach_length, length_seq. }
  split; [reflexivity|]. now rewrite getLengths_length.
Qed.

(** * More about the Frenet frames *)

Local Open Scope R_scope.

(** Normalizing forgets a positive factor. *)
Lemma normalize_scale (k : R) (v : Vector3) :
  0 < k -> Vector3.normalize (scale k v) = Vector3.normalize v.
Proof.
  intro Hk.
  assert (Hd : Vector3.dot (scale k v) (scale k v) = k * k * Vector3.dot v v)
    by (unfold Vector3.dot, scale; simpl; ring).
  pose proof (dot_self_nonneg v) as Hv.
  unfold Vector3.normalize. rewrite Hd.
  destruct (Rlt_dec 0 (k * k * Vector3.dot v v)) as [Hp|Hp];
    destruct (Rlt_dec 0 (Vector3.dot v v)) as [Hq|Hq].
  - rewrite sqrt_mult by nra. rewrite sqrt_square by lra.
    pose proof (sqrt_lt_R0 _ Hq) as Hs.
    unfold scale. apply vec3_eq; simpl; field; lra.
  - exfalso. apply Hq.
    assert (Hkk : 0 < k * k) by (apply Rmult_lt_0_compat; lra). nra.
  - exfalso. apply Hp.
    apply Rmult_lt_0_compat; [apply Rmult_lt_0_compat|]; lra.
  - assert (E : v = vec3 0 0 0) by (apply dot_self_zero; lra).
    rewrite E. unfold scale. apply vec3_eq; simpl; ring.
Qed.

Lemma sampleTangents_scale (g : option R -> Vector3) (k : option R -> R)
  (segments : nat) :
  (forall i : nat, (i <= segments)%nat -> 0 < k (sampleParameter i segments)) ->
  sampleTangents (fun u => scale (k u) (g u)) segments = sampleTangents g segments.
Proof.
  intro Hk. unfold sampleTangents. apply map_ext_in. intros i Hi.
  apply in_seq in Hi. apply normalize_scale, Hk. lia.
Qed.

(** X12.  [computeFrenetFrames] uses only the direction of what
    [getTangentAt] returns: stretching the tangent at each parameter the
    method samples ([i / segments]; [NaN] when [segments] is 0) by a positive
    factor of its own leaves the three sequences as they are. *)
Theorem frames_ignore_tangent_length (getTangentAt : option R -> Vector3)
  (k : option R -> R) (segments : nat) (closed : bool) :
  (forall i : nat, (i <= segments)%nat -> 0 < k (sampleParameter i segments)) ->
  computeFrenetFrames (fun u => scale (k u) (getTangentAt u)) segments closed
  = computeFrenetFrames getTangentAt segments closed.
Proof.
  intro Hk. unfold computeFrenetFrames.
  now rewrite (sampleTangents_scale getTangentAt k segments Hk).
Qed.

Lemma frames_ignore_tangent_length_witness :
  computeFrenetFrames (fun u => scale 2 (cornerTangent u)) 1 true
  = computeFrenetFrames cornerTangent 1 true.
Proof.
  apply (frames_ignore_tangent_length cornerTangent (fun _ => 2) 1 true).
  intros i Hi. lra.
Defined.

(** ** The closing twist as a turn of the open frames *)

Lemma rotate_zero (a v : Vector3) : rotate a 0 v = v.
Proof.
  unfold rotate, Vector3.transformMat4, Matrix4.makeRotationAxis, Vector3.dot.
  rewrite cos_0, sin_0. destruct a as [ax ay az], v as [vx vy vz].
  apply vec3_eq; simpl; ring.
Qed.

Lemma twist_zero (ts : list Vector3) :
  forall ns i, Datatypes.length ns = Datatypes.length ts ->
    twist 0 i ts ns = ns.
Proof.
  induction ts as [|t ts IH]; intros [|n ns] i E; simpl in *;
    try reflexivity; try discriminate.
  rewrite Rmult_0_l. fold (rotate t 0 n). rewrite rotate_zero.
  rewrite IH; [reflexivity | lia].
Qed.

(** The twist angle is at most a half turn spread over the segments. *)
Lemma twistAngle_bound (segments : nat) (t n0 nLast : Vector3) :
  Rabs (twistAngle segments t n0 nLast) * INR segments <= PI.
Proof.
  pose proof PI_RGT_0 as Hpi.
  destruct segments as [|m].
  { simpl. rewrite Rmult_0_r. lra. }
  assert (HS : 0 < INR (S m)) by (apply lt_0_INR; lia).
  unfold twistAngle.
  set (c := Clamp (Vector3.dot n0 nLast) (-1) 1).
  pose proof (acos_bound c) as [Ha0 Ha1].
  assert (Hq : 0 <= acos c / INR (S m)).
  { apply Rmult_le_pos; [exact Ha0|]. left. now apply Rinv_0_lt_compat. }
  assert (E : Rabs (acos c / INR (S m)) * INR (S m) = acos c).
  { rewrite Rabs_pos_eq by exact Hq. field. lra. }
  destruct (Rlt_dec 0 _); [rewrite Rabs_Ropp|]; rewrite E; exact Ha1.
Qed.

(** No twist when the transported last normal is the first normal. *)
Lemma twistAngle_matching (segments : nat) (t n0 : Vector3) :
  unit n0 -> twistAngle segments t n0 n0 = 0.
Proof.
  intro Hn. apply unit_dot in Hn. unfold twistAngle.
  rewrite Hn, Clamp_inside by lra. rewrite acos_1.
  unfold Rdiv. rewrite Rmult_0_l.
  destruct (Rlt_dec 0 _); [apply Ropp_0 | reflexivity].
Qed.

(** X13.  The closed branch turns each normal of the open result about its
    own tangent, the one at index [i] by [i] times one angle; this angle
    times the segment count is at most a half turn.  The tangents are those
    of the open result. *)
Theorem closing_turns_about_tangents (getTangentAt : option R -> Vector3)
  (segments : nat) :
  let open := computeFrenetFrames getTangentAt segments false in
  let closed := computeFrenetFrames getTangentAt segments true in
  tangents closed = tangents open /\
  exists theta : R,
    Rabs theta * INR segments <= PI /\
    forall (i : nat) (t n : Vector3),
      nth_error (tangents open) i = Some t ->
      nth_error (normals open) i = Some n ->
      nth_error (normals closed) i = Some (rotate t (theta * INR i) n).
Proof.
  intros open closed. split; [reflexivity|].
  unfold open, closed, computeFrenetFrames. cbn [tangents normals].
  remember (sampleTangents getTangentAt segments) as l eqn:El.
  destruct l as [|t0 ts].
  { exists 0. split.
    - rewrite Rabs_R0, Rmult_0_l. pose proof PI_RGT_0. lra.
    - intros i t n Et. destruct i; discriminate. }
  cbn [hd tl].
  set (n0 := firstNormal t0). set (ns := transport t0 n0 ts).
  exists (twistAngle segments t0 n0 (last ns n0)).
  split; [apply twistAngle_bound|].
  intros [|i] t n Et En; cbn [nth_error] in *.
  - injection En as <-. simpl. rewrite Rmult_0_r, rotate_zero. reflexivity.
  - rewrite (twist_nth ts ns _ 1 i t n Et En).
    now replace (1 + i)%nat with (S i) by lia.
Qed.

(** ** Frames that need no closing *)

Lemma twist_matching (segments : nat) (t0 n0 : Vector3) (ts ns : list Vector3) :
  unit n0 -> Datatypes.length ns = Datatypes.length ts ->
  last ns n0 = n0 ->
  twist (twistAngle segments t0 n0 (last ns n0)) 1 ts ns = ns.
Proof.
  intros Hn HL E. rewrite E, (twistAngle_matching segments t0 n0 Hn).
  now apply twist_zero.
Qed.

Lemma map_constant {A B : Type} (f : A -> B) (b : B) (l : list A) :
  (forall a, In a l -> f a = b) -> map f l = repeat b (Datatypes.length l).
Proof.
  induction l as [|a l IH]; intro Hf; simpl; [reflexivity|].
  rewrite (Hf a) by (left; reflexivity).
  rewrite IH; [reflexivity|]. intros a' Ha'. apply Hf. now right.
Qed.

Lemma transportNormal_same (t n : Vector3) : transportNormal t n t = n.
Proof.
  unfold transportNormal.
  assert (E : Vector3.crossVectors t t = vec3 0 0 0)
    by (unfold Vector3.crossVectors; apply vec3_eq; simpl; ring).
  rewrite E. unfold Vector3.length, Vector3.dot. simpl.
  replace (0 * 0 + 0 * 0 + 0 * 0) with 0 by ring. rewrite sqrt_0.
  pose proof EPSILON_pos.
  destruct (Rlt_dec EPSILON 0) as [Hn|_]; [exfalso; lra | reflexivity].
Qed.

Lemma transport_straight (t n : Vector3) (m : nat) :
  transport t n (repeat t m) = repeat n m.
Proof.
  induction m as [|m IH]; simpl; [reflexivity|].
  now rewrite transportNormal_same, IH.
Qed.

Lemma last_repeat {A : Type} (a : A) (m : nat) : last (repeat a m) a = a.
Proof.
  induction m as [|m IH]; [reflexivity|].
  simpl. destruct (repeat a m) eqn:E; [reflexivity | exact IH].
Qed.

Lemma binormals_repeat (t n : Vector3) (m : nat) :
  map (fun tn => Vector3.crossVectors (fst tn) (snd tn))
      (combine (repeat t m) (repeat n m))
  = repeat (Vector3.crossVectors t n) m.
Proof. induction m as [|m IH]; simpl; [reflexivity | now rewrite IH]. Qed.

Lemma sampleTangents_straight (g : option R -> Vector3) (segments : nat)
  (t : Vector3) :
  (forall i : nat, (i <= segments)%nat ->
     Vector3.normalize (g (sampleParameter i segments)) = t) ->
  sampleTangents g segments = repeat t (S segments).
Proof.
  intro Hg. unfold sampleTangents.
  rewrite (map_constant _ t).
  - now rewrite length_seq.
  - intros i Hi. apply in_seq in Hi. apply Hg. lia.
Qed.

(** X14.  When the tangents at the parameters the method samples
    ([i / segments]; [NaN] when [segments] is 0) all have one direction, the
    frame is the same at every sample, with or without the closing: the
    first normal and its binormal, repeated. *)
Theorem straight_frames (getTangentAt : option R -> Vector3) (segments : nat)
  (closed : bool) (t : Vector3) :
  unit t ->
  (forall i : nat, (i <= segments)%nat ->
     Vector3.normalize (getTangentAt (sampleParameter i segments)) = t) ->
  computeFrenetFrames getTangentAt segments closed
  = frenetFrames (repeat t (S segments))
                 (repeat (firstNormal t) (S segments))
                 (repeat (Vector3.crossVectors t (firstNormal t)) (S segments)).
Proof.
  intros Ht Hg. unfold computeFrenetFrames.
  rewrite (sampleTangents_straight getTangentAt segments t Hg).
  cbn [repeat hd tl]. rewrite transport_straight.
  destruct (firstNormal_frame t Ht) as [Hn _].
  assert (E : (if closed
               then twist (twistAngle segments t (firstNormal t)
                             (last (repeat (firstNormal t) segments) (firstNormal t)))
                          1 (repeat t segments) (repeat (firstNormal t) segments)
               else repeat (firstNormal t) segments)
              = repeat (firstNormal t) segments).
  { destruct closed; [|reflexivity].
    apply twist_matching; [exact Hn | | apply last_repeat].
    now rewrite !repeat_length. }
  rewrite E.
  change (t :: repeat t segments) with (repeat t (S segments)).
  change (firstNormal t :: repeat (firstNormal t) segments)
    with (repeat (firstNormal t) (S segments)).
  now rewrite binormals_repeat.
Qed.

Lemma straight_frames_witness :
  computeFrenetFrames (fun _ => vec3 1 0 0) 2 true
  = frenetFrames (repeat (vec3 1 0 0) 3)
                 (repeat (firstNormal (vec3 1 0 0)) 3)
                 (repeat (Vector3.crossVectors (vec3 1 0 0)
                            (firstNormal (vec3 1 0 0))) 3).
Proof.
  assert (Hu : Vector3.dot (vec3 1 0 0) (vec3 1 0 0) = 1)
    by (unfold Vector3.dot; simpl; ring).
  apply (straight_frames (fun _ => vec3 1 0 0) 2 true (vec3 1 0 0)).
  - apply unit_dot. exact Hu.
  - intros i Hi. apply normalize_of_unit. exact Hu.
Defined.

(** X15.  When the transported last normal of the open result already is
    the first normal, the closed branch changes nothing. *)
Theorem closing_keeps_matching_frames (getTangentAt : option R -> Vector3)
  (segments : nat) :
  regular getTangentAt segments ->
  (let open := computeFrenetFrames getTangentAt segments false in
   nth_error (normals open) segments = nth_error (normals open) 0) ->
  computeFrenetFrames getTangentAt segments true
  = computeFrenetFrames getTangentAt segments false.
Proof.
  intros Hr Hm. unfold computeFrenetFrames in *. cbn [normals] in Hm.
  pose proof (sampleTangents_length getTangentAt segments) as HL.
  remember (sampleTangents getTangentAt segments) as l eqn:El.
  destruct l as [|t0 ts]; [discriminate|]. cbn [hd tl] in *.
  simpl in HL. injection HL as HL.
  assert (Ht0 : unit t0).
  { apply (sampleTangents_unit getTangentAt segments 0 t0 Hr). now rewrite <- El. }
  destruct (firstNormal_frame t0 Ht0) as [Hn0 _].
  set (n0 := firstNormal t0) in *. set (ns := transport t0 n0 ts) in *.
  assert (Lns : Datatypes.length ns = Datatypes.length ts)
    by apply transport_length.
  assert (E : last ns n0 = n0).
  { destruct segments as [|m].
    - destruct ts; [|discriminate]. reflexivity.
    - cbn [nth_error] in Hm. apply last_nth_error.
      rewrite Lns, HL. exact Hm. }
  now rewrite (twist_matching segments t0 n0 ts ns Hn0 Lns E).
Qed.

Lemma closing_keeps_matching_frames_witness :
  computeFrenetFrames (fun _ => vec3 1 0 0) 1 true
  = computeFrenetFrames (fun _ => vec3 1 0 0) 1 false.
Proof.
  assert (Hu : Vector3.dot (vec3 1 0 0) (vec3 1 0 0) = 1)
    by (unfold Vector3.dot; simpl; ring).
  apply (closing_keeps_matching_frames (fun _ => vec3 1 0 0) 1).
  - intros i Hi E. injection E as E. lra.
  - unfold computeFrenetFrames. cbn [normals].
    rewrite (sampleTangents_straight (fun _ => vec3 1 0 0) 1 (vec3 1 0 0))
      by (intros; now apply normalize_of_unit).
    cbn [repeat hd tl transport nth_error].
    rewrite transportNormal_same. reflexivity.
Defined.

(** X16.  Under the conditions under which the frames are orthonormal, each
    frame is right-handed: the binormal is tangent x normal, the normal is
    binormal x tangent and the tangent is normal x binormal. *)
Theorem frames_right_handed (getTangentAt : option R -> Vector3) (segments : nat)
  (closed : bool) :
  regular getTangentAt segments -> steady getTangentAt segments ->
  let frames := computeFrenetFrames getTangentAt segments closed in
  forall (i : nat) (t n b : Vector3),
    nth_error (tangents frames) i = Some t ->
    nth_error (normals frames) i = Some n ->
    nth_error (binormals frames) i = Some b ->
    b = Vector3.crossVectors t n /\
    n = Vector3.crossVectors b t /\
    t = Vector3.crossVectors n b.
Proof.
  intros Hr Hs frames i t n b Et En Eb.
  destruct (normals_frames getTangentAt segments closed Hr Hs i t n Et En)
    as [Ht [Hn Hd]].
  assert (Hb : b = Vector3.crossVectors t n)
    by now apply (binormals_nth (tangents frames) (normals frames) i t n b Et En).
  apply unit_dot in Ht. apply unit_dot in Hn.
  split; [exact Hb|]. rewrite Hb. clear Et En Eb Hb.
  destruct t as [a b' c], n as [p q r].
  unfold Vector3.dot, Vector3.crossVectors in *. simpl in *.
  split; apply vec3_eq; simpl; nsatz.
Qed.

Lemma frames_right_handed_witness :
  let frames := computeFrenetFrames cornerTangent 1 true in
  exists t n b : Vector3,
    nth_error (tangents frames) 1 = Some t /\
    nth_error (normals frames) 1 = Some n /\
    nth_error (binormals frames) 1 = Some b /\
    b = Vector3.crossVectors t n /\
    n = Vector3.crossVectors b t /\
    t = Vector3.crossVectors n b.
Proof.
  intro frames.
  destruct (frames_lengths cornerTangent 1 true) as [L1 [L2 L3]].
  fold frames in L1, L2, L3.
  destruct (nth_error (tangents frames) 1) as [t|] eqn:Et;
    [|apply nth_error_None in Et; lia].
  destruct (nth_error (normals frames) 1) as [n|] eqn:En;
    [|apply nth_error_None in En; lia].
  destruct (nth_error (binormals frames) 1) as [b|] eqn:Eb;
    [|apply nth_error_None in Eb; lia].
  exists t, n, b. repeat (split; [reflexivity|]).
  exact (frames_right_handed cornerTangent 1 true corner_regular corner_steady
           1%nat t n b Et En Eb).
Defined.

(** ** The first normal *)

(** X17.  For a unit first tangent, the axis picked for the first normal is
    a world axis along which the tangent has its smallest component in
    absolute value, the later axis on a tie; the first normal points away
    from that axis. *)
Theorem firstNormal_least_axis (t : Vector3) :
  unit t ->
  let e := leastAxis t in
  (e = vec3 1 0 0 \/ e = vec3 0 1 0 \/ e = vec3 0 0 1) /\
  Rabs (Vector3.dot t e) = Rmin (Rabs (x t)) (Rmin (Rabs (y t)) (Rabs (z t))) /\
  (Rabs (z t) <= Rabs (x t) -> Rabs (z t) <= Rabs (y t) -> e = vec3 0 0 1) /\
  (Rabs (y t) <= Rabs (x t) -> Rabs (y t) < Rabs (z t) -> e = vec3 0 1 0) /\
  Vector3.dot (firstNormal t) e < 0.
Proof.
  intros Ht e. apply unit_dot in Ht.
  pose proof (unit_component_bounds t Ht) as [Hx [Hy Hz]].
  pose proof MAX_VALUE_ge_1 as HM.
  pose proof (leastAxis_cross t Ht) as Hc. fold e in Hc.
  assert (Hcases :
    (e = vec3 1 0 0 /\ Rabs (x t) < Rabs (y t) /\ Rabs (x t) < Rabs (z t)) \/
    (e = vec3 0 1 0 /\ Rabs (y t) <= Rabs (x t) /\ Rabs (y t) < Rabs (z t)) \/
    (e = vec3 0 0 1 /\ Rabs (z t) <= Rabs (x t) /\ Rabs (z t) <= Rabs (y t))).
  { unfold e, leastAxis.
    destruct (Rle_dec (Rabs (x t)) MAX_VALUE) as [_|Hn]; [|exfalso; lra].
    destruct (Rle_dec (Rabs (y t)) (Rabs (x t))) as [Hyx|Hyx].
    - destruct (Rle_dec (Rabs (z t)) (Rabs (y t))) as [Hzy|Hzy].
      + right. right. split; [reflexivity | lra].
      + right. left. split; [reflexivity | lra].
    - destruct (Rle_dec (Rabs (z t)) (Rabs (x t))) as [Hzx|Hzx].
      + right. right. split; [reflexivity | lra].
      + left. split; [reflexivity | lra]. }
  assert (Hdot : Vector3.dot (firstNormal t) e
                 = - sqrt (Vector3.dot (Vector3.crossVectors t e)
                                       (Vector3.crossVectors t e))).
  { unfold firstNormal. fold e.
    pose proof (dot_pos_nonzero _ Hc) as Hnz.
    rewrite (normalize_scaled _ Hnz).
    set (s := sqrt (Vector3.dot (Vector3.crossVectors t e)
                                (Vector3.crossVectors t e))).
    assert (Hs : 0 < s) by (apply sqrt_lt_R0; exact Hc).
    assert (Hss : s * s = Vector3.dot (Vector3.crossVectors t e)
                                      (Vector3.crossVectors t e))
      by (apply sqrt_sqrt; lra).
    apply (Rmult_eq_reg_r s); [|lra].
    replace (- s * s) with (- (s * s)) by ring. rewrite Hss.
    destruct t as [a b c], e as [p q r].
    unfold Vector3.dot, Vector3.crossVectors in *. simpl in *.
    field_simplify; [|lra]. nsatz. }
  split; [tauto|].
  split.
  { destruct Hcases as [[E [H1 H2]]|[[E [H1 H2]]|[E [H1 H2]]]]; rewrite E;
      unfold Vector3.dot; simpl;
      [ replace (x t * 1 + y t * 0 + z t * 0) with (x t) by ring
      | replace (x t * 0 + y t * 1 + z t * 0) with (y t) by ring
      | replace (x t * 0 + y t * 0 + z t * 1) with (z t) by ring ];
      unfold Rmin; repeat destruct (Rle_dec _ _); lra. }
  split.
  { intros H1 H2.
    destruct Hcases as [[E [H3 H4]]|[[E [H3 H4]]|[E _]]];
      [exfalso; lra | exfalso; lra | exact E]. }
  split.
  { intros H1 H2.
    destruct Hcases as [[E [H3 H4]]|[[E _]|[E [H3 H4]]]];
      [exfalso; lra | exact E | exfalso; lra]. }
  rewrite Hdot. pose proof (sqrt_lt_R0 _ Hc). lra.
Qed.

Lemma firstNormal_least_axis_witness :
  leastAxis (vec3 1 0 0) = vec3 0 0 1 /\
  Vector3.dot (firstNormal (vec3 1 0 0)) (leastAxis (vec3 1 0 0)) < 0.
Proof.
  assert (Hu : unit (vec3 1 0 0))
    by (apply unit_dot; unfold Vector3.dot; simpl; ring).
  destruct (firstNormal_least_axis (vec3 1 0 0) Hu) as [_ [_ [Hz [_ Hd]]]].
  split; [|exact Hd].
  apply Hz; simpl; rewrite ?Rabs_R0, ?Rabs_R1; lra.
Defined.

Local Close Scope R_scope.
